(** * The astrometry.net index cache of meas_extensions_astrometryNet

    A shallow embedding of [python/lsst/meas/extensions/astrometryNet/multiindex.py]:
    the path helper [getIndexPath], the lazily loaded handle [MultiIndexCache],
    the registry [AstrometryNetCatalog] with its FITS cache, and the driver
    [generateCache].

    Python exceptions are values of [exn]; a call returns a [result].  Methods
    of a handle run in a small state-and-error monad [M] over the handle and a
    trace of the native calls and log lines it makes: when a method raises, the
    assignments made before the raise stay, as they do in Python. *)

From Stdlib Require Import ZArith Ascii String.
From stdpp Require Import gmap strings list.

Local Open Scope Z_scope.

(** ** Exceptions and results *)

Inductive exn : Type :=
| RuntimeError (msg : string)
| TypeError
| ValueError
| IndexError
| KeyError
| AttributeError
| AssertionError
| OSError.

Inductive result (A : Type) : Type :=
| Ok (a : A)
| Raise (e : exn).
Arguments Ok {A} a.
Arguments Raise {A} e.

Definition is_ok {A} (r : result A) : bool :=
  match r with Ok _ => true | Raise _ => false end.

Definition rbind {A B} (r : result A) (k : A → result B) : result B :=
  match r with Ok a => k a | Raise e => Raise e end.

(** [[f(x) for x in xs]] where [f] may raise: the first exception wins. *)
Fixpoint rmap {A B} (f : A → result B) (xs : list A) : result (list B) :=
  match xs with
  | [] => Ok []
  | x :: rest =>
      rbind (f x) (λ y, rbind (rmap f rest) (λ ys, Ok (y :: ys)))
  end.

(** ** The native layer *)

(** Modelled from the spec: the index structure [index_t] of the native
    module [astrometry_net], which is not in the Python sources.  Only the
    attributes the Python code reads are kept. *)
Record index_t : Type := mkIndex {
  indexid : Z;
  healpix : Z;
  hpnside : Z;
  nstars : Z;
  nquads : Z
}.

(** Modelled from the spec: the native class [MultiIndex] (a primary star file
    and the index parts attached to it so far).  [mi_resident] tells whether
    the heavy payload is in memory. *)
Record MultiIndex : Type := mkMultiIndex {
  mi_name : string;
  mi_inds : list index_t;
  mi_resident : bool
}.

(** ** The cache record, as the FITS tables present it *)

Record HandleRow : Type := mkHandleRow {
  row_id : Z;
  row_healpix : Z;
  row_nside : Z
}.

Record FilenameRow : Type := mkFilenameRow {
  frow_id : Z;
  frow_filename : string
}.

(** The HDU list written by [writeCache]: the primary HDU is empty, [first] is
    the handle table, [second] the filename table, whose string column has
    [filename_width] characters. *)
Record CacheFile : Type := mkCacheFile {
  first : list HandleRow;
  filename_width : nat;
  second : list FilenameRow
}.

(** ** The configuration ([AstrometryNetDataConfig]) *)

(** Modelled from the spec: the three fields of [AstrometryNetDataConfig]
    (module [astrometryNetDataConfig], not in the sources) that the code
    reads.  A filename in a list may be [None] ([read] tests for it). *)
Definition Filename : Type := option string.

Record Config : Type := mkConfig {
  indexFiles : list Filename;
  multiIndexFiles : list (list Filename);
  allowCache : bool
}.

(** ** The environment *)

(** What the code asks of the operating system, of the package manager and of
    the native library.  Everything is a function of the path, so that a run
    is deterministic. *)
Record World : Type := mkWorld {
  (** [lsst.utils.getPackageDir('astrometry_net_data')]; [None] when it raises *)
  packageDir : option string;
  (** [os.path.abspath] *)
  abspath : string → string;
  (** [os.path.exists] *)
  path_exists : string → bool;
  (** whether [MultiIndex(path)] can read its star file *)
  star_file : string → bool;
  (** the index [addIndex(path, False)] attaches; [None] when it cannot *)
  index_file : string → option index_t;
  (** whether [MultiIndex.reload()] succeeds for the multi-index of that name *)
  can_reload : string → bool;
  (** the tables [fits.open(path)] finds; [None] when the file cannot be opened *)
  fits_file : string → option CacheFile;
  (** whether [writeto(path, overwrite=True)] can write *)
  can_write : string → bool;
  (** [AstrometryNetDataConfig().load(path)] *)
  load_config : string → result Config
}.

(** ** Trace of native calls and log lines *)

Inductive event : Type :=
| EvNew (path : string)            (* MultiIndex(path) *)
| EvAddIndex (path : string)       (* mi.addIndex(path, False) *)
| EvReload (name : string)         (* mi.reload() *)
| EvUnload (name : string)         (* mi.unload() *)
| EvDebug (msg : string)           (* log.debug *)
| EvWarn (msg : string).           (* log.warn *)

(** ** Paths *)

Definition isabs (fn : string) : bool :=
  match fn with
  | String c _ => bool_decide (c = "/"%char)
  | EmptyString => false
  end.

Fixpoint endswith_sep (s : string) : bool :=
  match s with
  | EmptyString => false
  | String c EmptyString => bool_decide (c = "/"%char)
  | String _ rest => endswith_sep rest
  end.

(** [os.path.join(a, b)] of [posixpath]. *)
Definition path_join (a b : string) : string :=
  if isabs b then b
  else if bool_decide (a = EmptyString) || endswith_sep a then (a +:+ b)%string
  else (a +:+ "/" +:+ b)%string.

Definition getIndexPath (w : World) (fn : string) : string :=
  if isabs fn then fn
  else match packageDir w with
       | None => abspath w fn
       | Some andir => path_join andir fn
       end.

(** ** MultiIndexCache *)

Record MultiIndexCache : Type := mkMultiIndexCache {
  _filenameList : list Filename;
  _healpix : Z;
  _nside : Z;
  _mi : option MultiIndex;
  _loaded : bool
}.

(** State of a method call: the object and the trace so far. *)
Record St : Type := mkSt {
  self : MultiIndexCache;
  trace : list event
}.

Definition M (A : Type) : Type := St → result A * St.

Definition ret {A} (a : A) : M A := λ s, (Ok a, s).
Definition raise {A} (e : exn) : M A := λ s, (Raise e, s).
Definition bind {A B} (m : M A) (k : A → M B) : M B :=
  λ s, match m s with
       | (Ok a, s') => k a s'
       | (Raise e, s') => (Raise e, s')
       end.

Notation "'let*' x ':=' m 'in' k" := (bind m (λ x, k))
  (at level 10, x name, m at level 100, k at level 200).
Notation "m ';;' k" := (bind m (λ _, k))
  (at level 100, k at level 200, right associativity).

Definition emit (e : event) : M unit :=
  λ s, (Ok tt, mkSt (self s) (trace s ++ [e])).
Definition get_self : M MultiIndexCache := λ s, (Ok (self s), s).
Definition set_mi (mi : option MultiIndex) : M unit :=
  λ s, let o := self s in
       (Ok tt, mkSt (mkMultiIndexCache (_filenameList o) (_healpix o) (_nside o) mi (_loaded o))
                    (trace s)).
Definition set_loaded (b : bool) : M unit :=
  λ s, let o := self s in
       (Ok tt, mkSt (mkMultiIndexCache (_filenameList o) (_healpix o) (_nside o) (_mi o) b)
                    (trace s)).
Definition set_healpix_nside (hp ns : Z) : M unit :=
  λ s, let o := self s in
       (Ok tt, mkSt (mkMultiIndexCache (_filenameList o) hp ns (_mi o) (_loaded o))
                    (trace s)).

(** [MultiIndexCache.__init__]. *)
Definition MultiIndexCache_init (filenameList : list Filename) (hp ns : Z)
  : result MultiIndexCache :=
  if (length filenameList <? 2)%nat
  then Raise (RuntimeError "Insufficient filenames provided for multiindex")
  else Ok (mkMultiIndexCache filenameList hp ns None false).

Section Handle.
Variable w : World.

(** *** Native calls through [self._mi] *)

(** Modelled from the spec: the native constructor [MultiIndex(fn)], which
    fails when the star file cannot be parsed.  A constructor returns an
    object or raises; the test [self._mi is None] that follows it in [read]
    can therefore not fire. *)
Definition MultiIndex_new (fn : string) : M MultiIndex :=
  emit (EvNew fn);;
  if star_file w fn then ret (mkMultiIndex fn [] true)
  else raise (RuntimeError "Unable to read multiindex star file").

(** A method call on [self._mi]; on [None] Python raises AttributeError. *)
Definition with_mi {A} (f : MultiIndex → M A) : M A :=
  let* o := get_self in
  match _mi o with
  | None => raise AttributeError
  | Some mi => f mi
  end.

(** Modelled from the spec: the native [addIndex(fn, False)] attaches the
    index part read from [fn] after the parts attached so far. *)
Definition mi_addIndex (fn : string) : M unit :=
  with_mi (λ mi,
    emit (EvAddIndex fn);;
    match index_file w fn with
    | None => raise (RuntimeError "Unable to read index file")
    | Some ind =>
        set_mi (Some (mkMultiIndex (mi_name mi) (mi_inds mi ++ [ind]) (mi_resident mi)))
    end).

(** Modelled from the spec: the native [self._mi[i]], the [i]-th attached
    part, by the sequence protocol: IndexError past the last part (this is
    what ends [iter(self._mi)] in [__iter__]). *)
Definition mi_getitem (i : nat) : M index_t :=
  with_mi (λ mi,
    match mi_inds mi !! i with
    | Some ind => ret ind
    | None => raise IndexError
    end).

(** Modelled from the spec: the native [reload()], a refresh of the existing
    structure, which may fail. *)
Definition mi_reload : M unit :=
  with_mi (λ mi,
    emit (EvReload (mi_name mi));;
    if can_reload w (mi_name mi)
    then set_mi (Some (mkMultiIndex (mi_name mi) (mi_inds mi) true))
    else raise (RuntimeError "Unable to reload multiindex")).

(** Modelled from the spec: the native [unload()] releases the payload and
    keeps the metadata; it has no failure of its own. *)
Definition mi_unload : M unit :=
  with_mi (λ mi,
    emit (EvUnload (mi_name mi));;
    set_mi (Some (mkMultiIndex (mi_name mi) (mi_inds mi) false))).

(** *** Methods *)

(** The loop of [read] over [enumerate(self._filenameList[1:])], from
    position [i]. *)
Fixpoint read_parts (i : nat) (fns : list Filename) : M unit :=
  match fns with
  | [] => ret tt
  | None :: rest =>
      emit (EvDebug "Unable to find index part of multiindex");;
      read_parts (S i) rest
  | Some fn :: rest =>
      let fn := getIndexPath w fn in
      if negb (path_exists w fn) then
        emit (EvWarn "Unable to get filename for astrometry index");;
        read_parts (S i) rest
      else
        emit (EvDebug "Reading index from multiindex file");;
        mi_addIndex fn;;
        let* ind := mi_getitem i in
        emit (EvDebug "index, hp (nside), nstars, nquads");;
        read_parts (S i) rest
  end.

Definition read : M unit :=
  let* o := get_self in
  match _mi o with
  | Some _ => ret tt
  | None =>
      match _filenameList o with
      | [] => raise IndexError
      | None :: _ => raise TypeError
      | Some fn0 :: parts =>
          let fn := getIndexPath w fn0 in
          if negb (path_exists w fn) then
            raise (RuntimeError "Unable to get filename for astrometry star file")
          else
            let* mi := MultiIndex_new fn in
            set_mi (Some mi);;
            read_parts 0 parts
      end
  end.

Definition reload : M unit :=
  let* o := get_self in
  if _loaded o then ret tt
  else
    (match _mi o with
     | None => read
     | Some _ => mi_reload
     end);;
    set_loaded true.

Definition unload : M unit :=
  let* o := get_self in
  if negb (_loaded o) then ret tt
  else
    mi_unload;;
    set_loaded false.

(** [__getitem__] *)
Definition getitem (i : nat) : M index_t :=
  reload;;
  mi_getitem i.

(** [__len__] *)
Definition len (o : MultiIndexCache) : Z :=
  Z.of_nat (length (_filenameList o)) - 1.

(** [__iter__]: [iter(self._mi)] walks [self._mi[0]], [self._mi[1]], ...
    until IndexError, that is, over the attached parts. *)
Definition iter : M (list index_t) :=
  reload;;
  with_mi (λ mi, ret (mi_inds mi)).

(** [[self[i].attr for i in range(len(self))]] *)
Fixpoint getitems (attr : index_t → Z) (i n : nat) : M (list Z) :=
  match n with
  | O => ret []
  | S n' =>
      let* ind := getitem i in
      let* rest := getitems attr (S i) n' in
      ret (attr ind :: rest)
  end.

(** [set.pop()] on a set already asserted to have one element. *)
Definition pop1 (s : gset Z) : Z := default 0 (head (elements s)).

(** The rest of [fromFilenameList], once the object exists. *)
Definition discover : M unit :=
  reload;;
  let* o := get_self in
  let n := Z.to_nat (len o) in
  let* hps := getitems healpix 0 n in
  let healpixes : gset Z := list_to_set hps in
  let* nss := getitems hpnside 0 n in
  let nsides : gset Z := list_to_set nss in
  if negb (size healpixes =? 1)%nat then raise AssertionError
  else if negb (size nsides =? 1)%nat then raise AssertionError
  else set_healpix_nside (pop1 healpixes) (pop1 nsides).

(** [MultiIndexCache.fromFilenameList]: the object (lost when the
    construction raises) and the trace of the construction. *)
Definition fromFilenameList (filenameList : list Filename)
  : result MultiIndexCache * list event :=
  match MultiIndexCache_init filenameList 0 0 with
  | Raise e => (Raise e, [])
  | Ok o =>
      match discover (mkSt o []) with
      | (Ok _, s) => (Ok (self s), trace s)
      | (Raise e, s) => (Raise e, trace s)
      end
  end.

End Handle.

(** *** isWithinRange *)

Section Range.
(** [lsst.afw.geom.SpherePoint], [lsst.afw.geom.Angle] and the native
    [healpixDistance] are taken as given; the native call may raise. *)
Variables Coord Angle : Type.
Variable healpixDistance : Z → Z → Coord → result Angle.
(** [a <= b] on angles *)
Variable angle_le : Angle → Angle → bool.

(** Python's [or] evaluates its right operand only when the left is false. *)
Definition isWithinRange (o : MultiIndexCache) (coord : Coord) (distance : Angle)
  : result bool :=
  if bool_decide (_healpix o = -1) then Ok true
  else rbind (healpixDistance (_healpix o) (_nside o) coord)
             (λ d, Ok (angle_le d distance)).
End Range.

(** ** AstrometryNetCatalog *)

Record AstrometryNetCatalog : Type := mkCatalog {
  config : Config;
  _multiInds : list MultiIndexCache
}.

Definition _cacheFilename : string := "andCache.fits".

(** *** Construction from the index files *)

(** [[fromFilenameList(fnList) for fnList in indexFiles]]: the handles built
    and the trace of the reads; the first exception ends the comprehension. *)
Fixpoint fromFilenameLists (w : World) (lists : list (list Filename))
  : result (list MultiIndexCache) * list event :=
  match lists with
  | [] => (Ok [], [])
  | fnList :: rest =>
      match fromFilenameList w fnList with
      | (Raise e, t) => (Raise e, t)
      | (Ok o, t) =>
          match fromFilenameLists w rest with
          | (Ok os, t') => (Ok (o :: os), t ++ t')
          | (Raise e, t') => (Raise e, t ++ t')
          end
      end
  end.

(** [list(zip(indexFiles, indexFiles)) + multiIndexFiles] *)
Definition indexFileLists (andConfig : Config) : list (list Filename) :=
  zip_with (λ a b, [a; b]) (indexFiles andConfig) (indexFiles andConfig)
  ++ multiIndexFiles andConfig.

Definition _initFromIndexFiles (w : World) (andConfig : Config)
  : result (list MultiIndexCache) * list event :=
  fromFilenameLists w (indexFileLists andConfig).

(** *** Writing the cache *)

(** [len(fn)]: TypeError on [None]. *)
Definition py_len (fn : Filename) : result nat :=
  match fn with
  | Some s => Ok (String.length s)
  | None => Raise TypeError
  end.

(** [max(...)]: ValueError on an empty sequence. *)
Definition py_max (xs : list nat) : result nat :=
  match xs with
  | [] => Raise ValueError
  | x :: rest => Ok (foldl Nat.max x rest)
  end.

(** A cell of a column of format "K" holds a signed 64-bit integer. *)
Definition wrap64 (z : Z) : Z := (z + 2 ^ 63) mod 2 ^ 64 - 2 ^ 63.

(** A cell of a column of format "<width>A" holds at most [width] characters;
    assigning a longer string keeps its first [width] characters. *)
Fixpoint str_take (n : nat) (s : string) : string :=
  match n, s with
  | S n', String c rest => String c (str_take n' rest)
  | _, _ => EmptyString
  end.

(** Characters that do not survive at the end of a stored string: FITS pads a
    cell with blanks, and astropy hands a character column back as a
    chararray, whose items come without trailing whitespace or NULs. *)
Definition blank (c : ascii) : bool :=
  let n := nat_of_ascii c in
  (n =? 0)%nat || ((9 <=? n)%nat && (n <=? 13)%nat) || ((28 <=? n)%nat && (n <=? 32)%nat).

Fixpoint rstrip (s : string) : string :=
  match s with
  | EmptyString => EmptyString
  | String c rest =>
      match rstrip rest with
      | EmptyString => if blank c then EmptyString else String c EmptyString
      | rest' => String c rest'
      end
  end.

(** [second.field("filename")] as the reader sees it. *)
Definition field_filename (rows : list FilenameRow) : list string :=
  map (λ r, rstrip (frow_filename r)) rows.

(** The rows a new table of [nrows] rows starts with. *)
Definition blank_row : FilenameRow := mkFilenameRow 0 EmptyString.

(** The inner loop of [writeCache]: [ident[i] = j; filenames[i] = fn; i += 1]
    for the filenames of handle [j].  Writing past the last row of a numpy
    array raises IndexError. *)
Fixpoint fill_filenames (width : nat) (j : Z) (fns : list Filename)
    (i : nat) (rows : list FilenameRow) : result (nat * list FilenameRow) :=
  match fns with
  | [] => Ok (i, rows)
  | None :: _ => Raise TypeError
  | Some fn :: rest =>
      if (i <? length rows)%nat
      then fill_filenames width j rest (S i) (<[i := mkFilenameRow j (str_take width fn)]> rows)
      else Raise IndexError
  end.

(** The outer loop, [for j, ind in enumerate(self._multiInds)], from handle [j]. *)
Fixpoint fill_second (width : nat) (j : nat) (inds : list MultiIndexCache)
    (i : nat) (rows : list FilenameRow) : result (list FilenameRow) :=
  match inds with
  | [] => Ok rows
  | ind :: rest =>
      rbind (fill_filenames width (Z.of_nat j) (_filenameList ind) i rows)
            (λ '(i', rows'), fill_second width (S j) rest i' rows')
  end.

(** [for ind in self._multiInds for fn in ind._filenameList] *)
Definition all_filenames (inds : list MultiIndexCache) : list Filename :=
  concat (map _filenameList inds).

(** [writeto(outName, overwrite=True)]: the file is replaced as a whole. *)
Definition writeto (w : World) (outName : string) (hdus : CacheFile) : result World :=
  if can_write w outName then
    Ok (mkWorld (packageDir w) (abspath w)
          (λ p, if bool_decide (p = outName) then true else path_exists w p)
          (star_file w) (index_file w) (can_reload w)
          (λ p, if bool_decide (p = outName) then Some hdus else fits_file w p)
          (can_write w) (load_config w))
  else Raise OSError.

Definition writeCache (w : World) (cat : AstrometryNetCatalog) : result World :=
  let inds := _multiInds cat in
  let outName := getIndexPath w _cacheFilename in
  let numFilenames := sum_list (map (λ ind, length (_filenameList ind)) inds) in
  rbind (rmap py_len (all_filenames inds)) (λ lens,
  rbind (py_max lens) (λ longest,
  let maxLength := (longest + 1)%nat in
  let first :=
    imap (λ j ind, mkHandleRow (Z.of_nat j) (wrap64 (_healpix ind)) (wrap64 (_nside ind)))
         inds in
  rbind (fill_second maxLength 0 inds 0 (replicate numFilenames blank_row)) (λ second,
  writeto w outName (mkCacheFile first maxLength second)))).

(** *** Reading the cache *)

(** [{i: [] for i in first.field("id")}] *)
Definition empty_lists (ids : list Z) : gmap Z (list string) :=
  foldl (λ m i, <[i := []]> m) ∅ ids.

(** [for id2, fn in zip(...): filenames[id2].append(fn)]; a missing key
    raises KeyError. *)
Fixpoint join_filenames (filenames : gmap Z (list string))
    (rows : list (Z * string)) : result (gmap Z (list string)) :=
  match rows with
  | [] => Ok filenames
  | (id2, fn) :: rest =>
      match filenames !! id2 with
      | None => Raise KeyError
      | Some l => join_filenames (<[id2 := l ++ [fn]]> filenames) rest
      end
  end.

(** [set(second.field("filename"))] *)
Definition cacheFiles (hdus : CacheFile) : gset (option string) :=
  list_to_set (map Some (field_filename (second hdus))).

(** [set(sum(self.config.multiIndexFiles, []) + self.config.indexFiles)] *)
Definition configFiles (andConfig : Config) : gset (option string) :=
  list_to_set (concat (multiIndexFiles andConfig) ++ indexFiles andConfig).

(** The body of the [with fits.open(filename)] block of [_initFromCache]:
    the handles the two tables describe. *)
Definition cache_handles (hdus : CacheFile) : result (list MultiIndexCache) :=
  let ids := map row_id (first hdus) in
  rbind (join_filenames (empty_lists ids)
           (zip (map frow_id (second hdus)) (field_filename (second hdus))))
    (λ filenames,
  rmap (λ r, match filenames !! row_id r with
             | None => Raise KeyError
             | Some l => MultiIndexCache_init (map Some l) (row_healpix r) (row_nside r)
             end) (first hdus)).

Definition _initFromCache (w : World) (andConfig : Config) (filename : string)
  : result (list MultiIndexCache) :=
  match fits_file w filename with
  | None => Raise OSError
  | Some hdus =>
      rbind (cache_handles hdus) (λ inds,
      (* Check for consistency *)
      if bool_decide (cacheFiles hdus = configFiles andConfig)
      then Ok inds
      else Raise AssertionError)
  end.

(** [AstrometryNetCatalog.__init__] *)
Definition AstrometryNetCatalog_init (w : World) (andConfig : Config)
  : result AstrometryNetCatalog * list event :=
  let cacheName := getIndexPath w _cacheFilename in
  if allowCache andConfig && path_exists w cacheName then
    match _initFromCache w andConfig cacheName with
    | Ok inds => (Ok (mkCatalog andConfig inds), [])
    | Raise e => (Raise e, [])
    end
  else
    match _initFromIndexFiles w andConfig with
    | (Ok inds, t) => (Ok (mkCatalog andConfig inds), t)
    | (Raise e, t) => (Raise e, t)
    end.

(** ** generateCache *)

Definition getConfigFromEnvironment (w : World) : result Config :=
  match packageDir w with
  | None =>
      let andConfigPath := "andConfig.py"%string in
      if negb (path_exists w andConfigPath)
      then Raise (RuntimeError "Unable to find andConfig.py in the current directory")
      else load_config w andConfigPath
  | Some anDir =>
      let andConfigPath := path_join anDir "andConfig.py" in
      if negb (path_exists w andConfigPath)
      then Raise (RuntimeError "Unable to find andConfig.py in astrometry_net_data directory")
      else load_config w andConfigPath
  end.

(** [for index in catalog: index.m()]: the handles are visited in registry
    order, each call updates its own handle, and the first exception ends the
    loop with the later handles untouched. *)
Fixpoint for_each (m : M unit) (inds : list MultiIndexCache) (t : list event)
  : result unit * (list MultiIndexCache * list event) :=
  match inds with
  | [] => (Ok tt, ([], t))
  | o :: rest =>
      match m (mkSt o t) with
      | (Ok _, s) =>
          let '(r, (rest', t')) := for_each m rest (trace s) in
          (r, (self s :: rest', t'))
      | (Raise e, s) => (Raise e, (self s :: rest, trace s))
      end
  end.

(** What a run of [generateCache] leaves behind: how it ended, the handles of
    the catalog it built (if it got that far), the file system and the trace. *)
Record Outcome : Type := mkOutcome {
  ended : result unit;
  handles : option (list MultiIndexCache);
  world : World;
  events : list event
}.

(** The [try] block of [generateCache]. *)
Definition generate_try (w : World) (cat : AstrometryNetCatalog) (t : list event)
  : result unit * (list MultiIndexCache * list event) * World :=
  match for_each (reload w) (_multiInds cat) t with
  | (Raise e, st) => (Raise e, st, w)
  | (Ok _, (inds, t')) =>
      match writeCache w (mkCatalog (config cat) inds) with
      | Ok w' => (Ok tt, (inds, t'), w')
      | Raise e => (Raise e, (inds, t'), w)
      end
  end.

(** The [finally] block: it runs however the [try] block ended; if it raises,
    its exception replaces the pending one. *)
Definition generate_finally (ended_try : result unit)
    (inds : list MultiIndexCache) (t : list event)
  : result unit * (list MultiIndexCache * list event) :=
  match for_each unload inds t with
  | (Raise e, st) => (Raise e, st)
  | (Ok _, st) => (ended_try, st)
  end.

Definition generateCache (w : World) (andConfig : option Config) : Outcome :=
  match (match andConfig with
         | None => getConfigFromEnvironment w
         | Some c => Ok c
         end) with
  | Raise e => mkOutcome (Raise e) None w []
  | Ok andConfig =>
      match AstrometryNetCatalog_init w andConfig with
      | (Raise e, t) => mkOutcome (Raise e) None w t
      | (Ok catalog, t) =>
          let '(r, (inds, t1), w1) := generate_try w catalog t in
          let '(r', (inds', t2)) := generate_finally r inds t1 in
          mkOutcome r' (Some inds') w1 t2
      end
  end.

(** ** A small installation, used to run the definitions

    The data directory holds two single index files (healpix cells 10 and 20
    at nside 4, the end-to-end scenario of the specification) and one more
    index part for cell 10. *)

Definition demo_files : list string :=
  ["/data/idx1.fits"; "/data/idx2.fits"; "/data/part.fits"]%string.

Definition demo_index (p : string) : option index_t :=
  if bool_decide (p = "/data/idx1.fits"%string) then Some (mkIndex 1 10 4 100 50)
  else if bool_decide (p = "/data/idx2.fits"%string) then Some (mkIndex 2 20 4 100 50)
  else if bool_decide (p = "/data/part.fits"%string) then Some (mkIndex 3 10 4 70 30)
  else None.

Definition demo_world : World :=
  mkWorld (Some "/data"%string) (λ p, ("/cwd/" +:+ p)%string)
    (λ p, bool_decide (p ∈ demo_files)) (λ p, bool_decide (p ∈ demo_files))
    demo_index (λ _, true) (λ _, None) (λ _, true) (λ _, Raise OSError).

Definition demo_config : Config :=
  mkConfig [Some "idx1.fits"; Some "idx2.fits"]%string [] true.

(** A handle straight from the constructor. *)
Definition demo_handle : MultiIndexCache :=
  mkMultiIndexCache [Some "idx1.fits"; Some "idx1.fits"]%string 10 4 None false.

(** A handle whose first part is null and whose second part is on disk. *)
Definition gap_handle : MultiIndexCache :=
  mkMultiIndexCache [Some "idx1.fits"; None; Some "part.fits"]%string 10 4 None false.

(** A handle whose parts are present first, then null, then missing on disk. *)
Definition tail_handle : MultiIndexCache :=
  mkMultiIndexCache [Some "idx1.fits"; Some "part.fits"; None; Some "gone.fits"]%string
    10 4 None false.

(** ** Method calls as operations of a state machine *)

Inductive op : Type := OpRead | OpReload | OpUnload.

Definition run_op (w : World) (o : op) : M unit :=
  match o with
  | OpRead => read w
  | OpReload => reload w
  | OpUnload => unload
  end.

(** The states a handle can be in: built by the constructor or by
    [fromFilenameList], then any calls of [read], [reload] and [unload],
    whether they return or raise. *)
Inductive reachable (w : World) : St → Prop :=
| reach_init fl hp ns o t :
    MultiIndexCache_init fl hp ns = Ok o → reachable w (mkSt o t)
| reach_fromFilenameList fl o t :
    fromFilenameList w fl = (Ok o, t) → reachable w (mkSt o t)
| reach_call s o :
    reachable w s → reachable w (snd (run_op w o s)).

(** The load-state invariant. *)
Definition loaded_has_mi (o : MultiIndexCache) : Prop :=
  _loaded o = true → is_Some (_mi o).

(** ** Reasoning about methods *)

(** What the calls on [self._mi] leave alone: the filenames, healpix, nside,
    the loaded flag, and the presence of [self._mi]. *)
Definition mi_only (s s' : St) : Prop :=
  _filenameList (self s') = _filenameList (self s)
  ∧ _healpix (self s') = _healpix (self s)
  ∧ _nside (self s') = _nside (self s)
  ∧ _loaded (self s') = _loaded (self s)
  ∧ (is_Some (_mi (self s)) → is_Some (_mi (self s'))).

Definition keeps {A} (m : M A) : Prop := ∀ s, mi_only s (snd (m s)).

Create HintDb keeps.

(** A computation that maintains the load-state invariant, whether it
    returns or raises. *)
Definition pres {A} (m : M A) : Prop :=
  ∀ s, loaded_has_mi (self s) → loaded_has_mi (self (snd (m s))).

(** A handle for the whole sky (healpix -1). *)
Definition sky_handle : MultiIndexCache :=
  mkMultiIndexCache [Some "idx1.fits"; Some "idx1.fits"]%string (-1) 0 None false.

(** A stand-in for the native distance, on integer coordinates and angles. *)
Definition demo_distance (hp ns : Z) (coord : Z * Z) : result Z :=
  if ns <=? 0 then Raise ValueError else Ok (Z.abs (coord.1 - hp) + Z.abs coord.2).

(** Null and missing entries: what [read_parts] skips. *)
Definition skipped (w : World) (fn : Filename) : Prop :=
  match fn with
  | None => True
  | Some f => path_exists w (getIndexPath w f) = false
  end.

(** What [MultiIndexCache.__init__] guarantees of a handle. *)
Definition constructed (o : MultiIndexCache) : Prop :=
  (2 ≤ length (_filenameList o))%nat.

(** A handle without the native state: what the cache records of it. *)
Definition unloaded_copy (o : MultiIndexCache) : MultiIndexCache :=
  mkMultiIndexCache (_filenameList o) (_healpix o) (_nside o) None false.

(** The file system after [generateCache] ran on the demo configuration. *)
Definition cached_world : World := world (generateCache demo_world (Some demo_config)).

(** The same two files declared as one group, out of order and with a repeat. *)
Definition regrouped_config : Config :=
  mkConfig [] [[Some "idx2.fits"; Some "idx1.fits"; Some "idx2.fits"]%string] true.

(** A configuration that declares one more file than the cache covers. *)
Definition grown_config : Config :=
  mkConfig [Some "idx1.fits"; Some "idx2.fits"; Some "part.fits"]%string [] true.

(** A configuration without index files, and its registry. *)
Definition empty_config : Config := mkConfig [] [] true.

(** A cache file whose only handle has a single filename. *)
Definition short_cache : CacheFile :=
  mkCacheFile [mkHandleRow 0 10 4] 10 [mkFilenameRow 0 "idx1.fits"].

Definition short_cache_world : World :=
  mkWorld (Some "/data"%string) (λ p, ("/cwd/" +:+ p)%string)
    (λ p, bool_decide (p = "/data/andCache.fits"%string)) (λ _, false)
    (λ _, None) (λ _, true)
    (λ p, if bool_decide (p = "/data/andCache.fits"%string) then Some short_cache else None)
    (λ _, true) (λ _, Raise OSError).

(** A disk that cannot be written. *)
Definition readonly_world : World :=
  mkWorld (packageDir demo_world) (abspath demo_world) (path_exists demo_world)
    (star_file demo_world) (index_file demo_world) (can_reload demo_world)
    (fits_file demo_world) (λ _, false) (load_config demo_world).

(** A computation that leaves the filename list alone. *)
Definition keeps_files {A} (m : M A) : Prop :=
  ∀ s, _filenameList (self (snd (m s))) = _filenameList (self s).

(** The registry of the demo configuration, as the cache describes it. *)
Definition demo_catalog : AstrometryNetCatalog :=
  mkCatalog demo_config
    [demo_handle;
     mkMultiIndexCache [Some "idx2.fits"; Some "idx2.fits"]%string 20 4 None false].

(** ** What the cache can hold *)

(** Whether the last character of a string is one that a stored cell loses. *)
Fixpoint ends_blank (s : string) : bool :=
  match s with
  | EmptyString => false
  | String c EmptyString => blank c
  | String _ rest => ends_blank rest
  end.

(** A filename the character column gives back as it was stored. *)
Definition storable (fn : Filename) : bool :=
  match fn with
  | Some s => negb (ends_blank s)
  | None => false
  end.

(** The range of a cell of format "K". *)
Definition in_int64 (z : Z) : Prop := - 2 ^ 63 ≤ z < 2 ^ 63.

Definition storable_handle (o : MultiIndexCache) : Prop :=
  Forall (λ fn, storable fn = true) (_filenameList o)
  ∧ in_int64 (_healpix o) ∧ in_int64 (_nside o).

(** The registry invariant of the specification: the filenames of the handles
    and the filenames the configuration declares form the same set. *)
Definition consistent (cat : AstrometryNetCatalog) : Prop :=
  list_to_set (all_filenames (_multiInds cat)) = configFiles (config cat).

(** The strings of a filename list. *)
Definition names (o : MultiIndexCache) : list string := omap id (_filenameList o).

(** The filename table [writeCache] fills in, handle by handle from [j]. *)
Fixpoint all_rows (j : nat) (inds : list MultiIndexCache) : list FilenameRow :=
  match inds with
  | [] => []
  | o :: rest => map (mkFilenameRow (Z.of_nat j)) (names o) ++ all_rows (S j) rest
  end.

(** The handle table, from [j]. *)
Fixpoint handle_rows (j : nat) (inds : list MultiIndexCache) : list HandleRow :=
  match inds with
  | [] => []
  | o :: rest =>
      mkHandleRow (Z.of_nat j) (wrap64 (_healpix o)) (wrap64 (_nside o))
      :: handle_rows (S j) rest
  end.

(** The total number of filenames. *)
Definition numFilenames (inds : list MultiIndexCache) : nat :=
  sum_list (map (λ ind, length (_filenameList ind)) inds).

(** The round trip of a registry through its cache file: [writeCache]
    returns, and [_initFromCache] on the file it wrote returns as many handles,
    with the same filename lists, healpix and nside, in the same order. *)
Definition round_trips (w : World) (cat : AstrometryNetCatalog) : Prop :=
  ∃ w' inds',
    writeCache w cat = Ok w'
    ∧ _initFromCache w' (config cat) (getIndexPath w' _cacheFilename) = Ok inds'
    ∧ length inds' = length (_multiInds cat)
    ∧ map _filenameList inds' = map _filenameList (_multiInds cat)
    ∧ map _healpix inds' = map _healpix (_multiInds cat)
    ∧ map _nside inds' = map _nside (_multiInds cat).

(** ** Further definitions for the handle *)

(** A sequence of method calls, each run whether the one before returned or
    raised. *)
Fixpoint run_ops (w : World) (ops : list op) (s : St) : St :=
  match ops with
  | [] => s
  | o :: rest => run_ops w rest (snd (run_op w o s))
  end.

(** A computation that leaves the filenames, healpix and nside alone. *)
Definition keeps_meta {A} (m : M A) : Prop :=
  ∀ s, _filenameList (self (snd (m s))) = _filenameList (self s)
       ∧ _healpix (self (snd (m s))) = _healpix (self s)
       ∧ _nside (self (snd (m s))) = _nside (self s).

(** A part entry that [read] attaches: non-null and on disk. *)
Definition present (w : World) (fn : Filename) : bool :=
  match fn with
  | Some f => path_exists w (getIndexPath w f)
  | None => false
  end.

(** The index an attached part file holds. *)
Definition part_index (w : World) (f : string) : option index_t :=
  index_file w (getIndexPath w f).

(** The number of part entries that [read] attaches. *)
Fixpoint count_present (w : World) (fns : list Filename) : nat :=
  match fns with
  | [] => 0
  | fn :: rest => (if present w fn then 1 else 0) + count_present w rest
  end.

(** A handle with the given native structure and the rest of [o]. *)
Definition with_native (o : MultiIndexCache) (mi : MultiIndex) : MultiIndexCache :=
  mkMultiIndexCache (_filenameList o) (_healpix o) (_nside o) (Some mi) (_loaded o).

(** ** Further definitions for the cache *)

(** The filenames of the rows of the filename table whose id is [k], in table
    order, as the reader sees them. *)
Definition rows_of_id (k : Z) (rows : list FilenameRow) : list string :=
  omap (λ r, if bool_decide (frow_id r = k) then Some (rstrip (frow_filename r)) else None)
       rows.

(** The ids of the handle table. *)
Definition handle_ids (hdus : CacheFile) : list Z := map row_id (first hdus).

(** A cache file with a filename row whose id is not in the handle table. *)
Definition orphan_cache : CacheFile :=
  mkCacheFile [mkHandleRow 0 10 4] 10
    [mkFilenameRow 0 "idx1.fits"; mkFilenameRow 0 "idx1.fits"; mkFilenameRow 7 "idx2.fits"].

(** The attached parts never outnumber the declared ones. *)
Definition bounded (o : MultiIndexCache) : Prop :=
  ∀ mi, _mi o = Some mi → (length (mi_inds mi) ≤ length (_filenameList o) - 1)%nat.

(** A computation that maintains [bounded], whether it returns or raises. *)
Definition pres_bounded {A} (m : M A) : Prop :=
  ∀ s, bounded (self s) → bounded (self (snd (m s))).

(** * Properties *)

Lemma mi_only_refl s : mi_only s s.
Proof. by repeat split. Qed.

Lemma mi_only_trans s1 s2 s3 : mi_only s1 s2 → mi_only s2 s3 → mi_only s1 s3.
Proof.
  intros (a1 & a2 & a3 & a4 & a5) (b1 & b2 & b3 & b4 & b5).
  repeat split; try congruence. auto.
Qed.

Lemma keeps_ret {A} (a : A) : keeps (ret a).
Proof. intros s. apply mi_only_refl. Qed.

Lemma keeps_raise {A} e : keeps (@raise A e).
Proof. intros s. apply mi_only_refl. Qed.

Lemma keeps_emit e : keeps (emit e).
Proof. intros s. by repeat split. Qed.

Lemma keeps_get_self : keeps get_self.
Proof. intros s. apply mi_only_refl. Qed.

Lemma keeps_set_mi mi : keeps (set_mi (Some mi)).
Proof. intros s. repeat split; simpl; eauto. Qed.

Lemma keeps_bind {A B} (m : M A) (k : A → M B) :
  keeps m → (∀ a, keeps (k a)) → keeps (bind m k).
Proof.
  intros Hm Hk s. unfold bind. specialize (Hm s).
  destruct (m s) as [[a|e] s1]; simpl in *; [|done].
  eapply mi_only_trans; [exact Hm | apply Hk].
Qed.

Lemma keeps_with_mi {A} (f : MultiIndex → M A) :
  (∀ mi, keeps (f mi)) → keeps (with_mi f).
Proof.
  intros Hf. unfold with_mi. apply keeps_bind; [apply keeps_get_self|].
  intros o. destruct (_mi o); [apply Hf | apply keeps_raise].
Qed.

#[local] Hint Resolve keeps_ret keeps_raise keeps_emit keeps_get_self
  keeps_set_mi keeps_bind keeps_with_mi : keeps.

Lemma keeps_MultiIndex_new w fn : keeps (MultiIndex_new w fn).
Proof.
  unfold MultiIndex_new. apply keeps_bind; [auto with keeps|].
  intros _. destruct (star_file w fn); auto with keeps.
Qed.

Lemma keeps_mi_addIndex w fn : keeps (mi_addIndex w fn).
Proof.
  unfold mi_addIndex. apply keeps_with_mi. intros mi.
  apply keeps_bind; [auto with keeps|]. intros _.
  destruct (index_file w fn); auto with keeps.
Qed.

Lemma keeps_mi_getitem i : keeps (mi_getitem i).
Proof.
  unfold mi_getitem. apply keeps_with_mi. intros mi.
  destruct (mi_inds mi !! i); auto with keeps.
Qed.

Lemma keeps_mi_reload w : keeps (mi_reload w).
Proof.
  unfold mi_reload. apply keeps_with_mi. intros mi.
  apply keeps_bind; [auto with keeps|]. intros _.
  destruct (can_reload w (mi_name mi)); auto with keeps.
Qed.

Lemma keeps_mi_unload : keeps mi_unload.
Proof.
  unfold mi_unload. apply keeps_with_mi. intros mi. auto with keeps.
Qed.

#[local] Hint Resolve keeps_MultiIndex_new keeps_mi_addIndex keeps_mi_getitem
  keeps_mi_reload keeps_mi_unload : keeps.

Lemma keeps_read_parts w fns : ∀ i, keeps (read_parts w i fns).
Proof.
  induction fns as [|[fn|] rest IH]; intros i; simpl.
  - auto with keeps.
  - destruct (negb _); auto 8 with keeps.
  - auto with keeps.
Qed.

#[local] Hint Resolve keeps_read_parts : keeps.

Lemma keeps_read w : keeps (read w).
Proof.
  unfold read. apply keeps_bind; [auto with keeps|]. intros o.
  destruct (_mi o); [auto with keeps|].
  destruct (_filenameList o) as [|[fn0|] parts]; [auto with keeps| |auto with keeps].
  destruct (negb _); auto 8 with keeps.
Qed.

(** A [read] that returns leaves [self._mi] set. *)
Lemma read_ok_has_mi w s s' :
  read w s = (Ok tt, s') → is_Some (_mi (self s')).
Proof.
  unfold read, bind, get_self. simpl.
  destruct (_mi (self s)) eqn:Hmi.
  - unfold ret. intros [= <-]. rewrite Hmi. eauto.
  - destruct (_filenameList (self s)) as [|[fn0|] parts]; [done| |done].
    destruct (negb _); [done|].
    unfold MultiIndex_new, bind, emit. simpl.
    destruct (star_file w _); [|done]. simpl.
    intros Hparts.
    pose proof (keeps_read_parts w parts 0%nat) as Hk.
    match type of Hparts with read_parts _ _ _ ?s0 = _ => specialize (Hk s0) end.
    rewrite Hparts in Hk. destruct Hk as (_ & _ & _ & _ & Hk).
    apply Hk. simpl. eauto.
Qed.

Lemma pres_keeps {A} (m : M A) : keeps m → pres m.
Proof.
  intros Hk s Hinv. destruct (Hk s) as (_ & _ & _ & Hl & Hsome).
  intros Hl'. apply Hsome, Hinv. congruence.
Qed.

Lemma pres_bind {A B} (m : M A) (k : A → M B) :
  pres m → (∀ a, pres (k a)) → pres (bind m k).
Proof.
  intros Hm Hk s Hinv. unfold bind. specialize (Hm s Hinv).
  destruct (m s) as [[a|e] s1]; simpl in *; [|done].
  by apply Hk.
Qed.

Lemma pres_read w : pres (read w).
Proof. apply pres_keeps, keeps_read. Qed.

(** [reload] never leaves the flag set without a native handle. *)
Lemma pres_reload w : pres (reload w).
Proof.
  intros s Hinv. unfold reload, bind, get_self. simpl.
  destruct (_loaded (self s)) eqn:Hl; [exact Hinv|].
  destruct (_mi (self s)) eqn:Hmi.
  - pose proof (keeps_mi_reload w s) as (_ & _ & _ & Hl' & Hsome).
    destruct (mi_reload w s) as [[[]|e] s1]; simpl in *.
    + intros _. apply Hsome. rewrite Hmi. eauto.
    + intros Hc. congruence.
  - pose proof (keeps_read w s) as (_ & _ & _ & Hl' & _).
    destruct (read w s) as [[[]|e] s1] eqn:Hr; simpl in *.
    + intros _. eapply read_ok_has_mi. exact Hr.
    + intros Hc. congruence.
Qed.

Lemma pres_unload : pres unload.
Proof.
  intros s Hinv. unfold unload, bind, get_self. simpl.
  destruct (_loaded (self s)) eqn:Hl; simpl; [|exact Hinv].
  pose proof (keeps_mi_unload s) as (_ & _ & _ & _ & Hsome).
  destruct (mi_unload s) as [[[]|e] s1]; simpl in *.
  - intros Hc. discriminate.
  - intros _. apply Hsome, Hinv, Hl.
Qed.

Lemma pres_run_op w o : pres (run_op w o).
Proof. destruct o; [apply pres_read | apply pres_reload | apply pres_unload]. Qed.

(** With the invariant, [unload] returns and leaves the handle unloaded. *)
Lemma unload_ok s :
  loaded_has_mi (self s) →
  fst (unload s) = Ok tt ∧ _loaded (self (snd (unload s))) = false.
Proof.
  intros Hinv. unfold unload, bind, get_self. simpl.
  destruct (_loaded (self s)) eqn:Hl; simpl; [|done].
  destruct (Hinv Hl) as [mi Hmi].
  unfold mi_unload, with_mi, bind, get_self, emit, set_mi. simpl.
  rewrite Hmi. simpl. done.
Qed.

Lemma init_unloaded fl hp ns o :
  MultiIndexCache_init fl hp ns = Ok o →
  _filenameList o = fl ∧ _healpix o = hp ∧ _nside o = ns
  ∧ _mi o = None ∧ _loaded o = false.
Proof.
  unfold MultiIndexCache_init. destruct (_ <? _)%nat; [done|].
  by intros [= <-].
Qed.

Lemma pres_getitem w i : pres (getitem w i).
Proof.
  unfold getitem. apply pres_bind; [apply pres_reload|].
  intros _. apply pres_keeps, keeps_mi_getitem.
Qed.

Lemma pres_getitems w attr n : ∀ i, pres (getitems w attr i n).
Proof.
  induction n as [|n IH]; intros i; simpl.
  - apply pres_keeps, keeps_ret.
  - apply pres_bind; [apply pres_getitem|]. intros ind.
    apply pres_bind; [apply IH|]. intros rest. apply pres_keeps, keeps_ret.
Qed.

(** [discover] (the body of [fromFilenameList]) ends with the flag and the
    native handle as [reload] left them, whatever it assigns to healpix and
    nside. *)
Lemma pres_discover w : pres (discover w).
Proof.
  unfold discover. apply pres_bind; [apply pres_reload|]. intros _.
  apply pres_bind; [apply pres_keeps, keeps_get_self|]. intros o.
  apply pres_bind; [apply pres_getitems|]. intros hps.
  apply pres_bind; [apply pres_getitems|]. intros nss.
  destruct (negb _); [apply pres_keeps, keeps_raise|].
  destruct (negb _); [apply pres_keeps, keeps_raise|].
  intros s Hinv. exact Hinv.
Qed.

Lemma reachable_loaded_has_mi w s : reachable w s → loaded_has_mi (self s).
Proof.
  induction 1 as [fl hp ns o t Hinit | fl o t Hfrom | s o Hreach IH].
  - apply init_unloaded in Hinit as (_ & _ & _ & _ & Hl).
    intros Hc. simpl in *. congruence.
  - unfold fromFilenameList in Hfrom.
    destruct (MultiIndexCache_init fl 0 0) as [o0|e] eqn:Hinit; [|done].
    apply init_unloaded in Hinit as (_ & _ & _ & _ & Hl).
    assert (loaded_has_mi (self (mkSt o0 []))) as H0.
    { intros Hc. simpl in *. congruence. }
    apply (pres_discover w) in H0.
    destruct (discover w (mkSt o0 [])) as [[[]|e] s1]; simpl in *; [|done].
    by injection Hfrom as <- <-.
  - by apply pres_run_op.
Qed.

(** ** MultiIndexCache: reload, unload and the load state *)

Lemma reload_when_loaded w s :
  _loaded (self s) = true → reload w s = (Ok tt, s).
Proof. intros Hl. unfold reload, bind, get_self. simpl. by rewrite Hl. Qed.

Lemma reload_ok_loaded w s s1 :
  reload w s = (Ok tt, s1) → _loaded (self s1) = true.
Proof.
  unfold reload, bind, get_self. simpl.
  destruct (_loaded (self s)) eqn:Hl.
  - unfold ret. by intros [= <-].
  - destruct (_mi (self s)).
    + destruct (mi_reload w s) as [[[]|e] s0]; [|done].
      unfold set_loaded. simpl. by intros [= <-].
    + destruct (read w s) as [[[]|e] s0]; [|done].
      unfold set_loaded. simpl. by intros [= <-].
Qed.

(** C3. Idempotent reload: on a handle whose [loaded] flag is set, [reload]
    returns at once, leaving the handle and the trace of native calls as they
    were; so after a [reload] that returned, the flag is set, and a second
    [reload] returns with the flag set, makes no native call and leaves the
    state the first one produced. *)
Theorem reload_idempotent w s :
  (_loaded (self s) = true → reload w s = (Ok tt, s))
  ∧ (∀ s1, reload w s = (Ok tt, s1) →
       _loaded (self s1) = true
       ∧ reload w s1 = (Ok tt, s1)
       ∧ _loaded (self (snd (reload w s1))) = true
       ∧ trace (snd (reload w s1)) = trace s1).
Proof.
  split; [apply reload_when_loaded|].
  intros s1 H1. pose proof (reload_ok_loaded _ _ _ H1) as Hl.
  rewrite (reload_when_loaded w s1 Hl). done.
Qed.

Lemma reload_idempotent_witness :
  let s := mkSt demo_handle [] in
  let s1 := snd (reload demo_world s) in
  length (trace s1) = 4%nat
  ∧ reload demo_world s1 = (Ok tt, s1)
  ∧ (_loaded (self s1) = true
     ∧ reload demo_world s1 = (Ok tt, s1)
     ∧ _loaded (self (snd (reload demo_world s1))) = true
     ∧ trace (snd (reload demo_world s1)) = trace s1).
Proof.
  split; [vm_compute; reflexivity|]. split.
  - apply (proj1 (reload_idempotent demo_world _)). vm_compute. reflexivity.
  - apply (proj2 (reload_idempotent demo_world (mkSt demo_handle []))).
    vm_compute. reflexivity.
Defined.

(** C8. Load-state invariant: in every state a handle reaches from its
    construction through calls of [read], [reload] and [unload] (returning or
    raising), a set [loaded] flag comes with a native handle; [unload] then
    returns without touching a null handle, and on a handle that is not loaded
    it changes nothing. *)
Theorem load_state_invariant w s :
  reachable w s →
  loaded_has_mi (self s)
  ∧ fst (unload s) = Ok tt
  ∧ (_loaded (self s) = false → unload s = (Ok tt, s)).
Proof.
  intros Hreach. pose proof (reachable_loaded_has_mi w s Hreach) as Hinv.
  split; [exact Hinv|]. split; [by apply unload_ok|].
  intros Hl. unfold unload, bind, get_self. simpl. by rewrite Hl.
Qed.

Lemma load_state_invariant_witness :
  let s := snd (run_op demo_world OpUnload
             (snd (run_op demo_world OpReload (mkSt demo_handle [])))) in
  loaded_has_mi (self s)
  ∧ fst (unload s) = Ok tt
  ∧ (_loaded (self s) = false → unload s = (Ok tt, s)).
Proof.
  apply (load_state_invariant demo_world).
  apply reach_call, reach_call.
  apply (reach_init demo_world [Some "idx1.fits"; Some "idx1.fits"]%string 10 4).
  reflexivity.
Defined.

Example unload_fresh_handle :
  unload (mkSt demo_handle []) = (Ok tt, mkSt demo_handle []).
Proof. reflexivity. Qed.

(** ** MultiIndexCache: isWithinRange *)

(** C5. Sentinel range check: with healpix -1, [isWithinRange] returns true
    for every coordinate and distance, whatever the native distance function
    would do (it is not called); with any other healpix it returns true
    exactly when the native distance to the cell is at most the given
    distance, and raises what the native call raises. *)
Theorem isWithinRange_sentinel {Coord Angle : Type}
    (healpixDistance : Z → Z → Coord → result Angle)
    (angle_le : Angle → Angle → bool)
    (o : MultiIndexCache) (coord : Coord) (distance : Angle) :
  (_healpix o = -1 →
     isWithinRange Coord Angle healpixDistance angle_le o coord distance = Ok true)
  ∧ (_healpix o ≠ -1 →
     (∀ d, healpixDistance (_healpix o) (_nside o) coord = Ok d →
        isWithinRange Coord Angle healpixDistance angle_le o coord distance
        = Ok (angle_le d distance))
     ∧ (∀ e, healpixDistance (_healpix o) (_nside o) coord = Raise e →
        isWithinRange Coord Angle healpixDistance angle_le o coord distance
        = Raise e)).
Proof.
  unfold isWithinRange. split.
  - intros Hhp. by rewrite bool_decide_eq_true_2.
  - intros Hhp. rewrite bool_decide_eq_false_2 by done.
    split; intros ? ->; reflexivity.
Qed.

Lemma isWithinRange_sentinel_witness :
  isWithinRange (Z * Z) Z demo_distance Z.leb sky_handle (0, 0) 0 = Ok true
  ∧ demo_distance (_healpix sky_handle) (_nside sky_handle) (0, 0) = Raise ValueError
  ∧ isWithinRange (Z * Z) Z demo_distance Z.leb demo_handle (12, 1) 3 = Ok true
  ∧ isWithinRange (Z * Z) Z demo_distance Z.leb demo_handle (12, 1) 2 = Ok false.
Proof.
  split.
  { apply (proj1 (isWithinRange_sentinel demo_distance Z.leb sky_handle (0, 0) 0)).
    reflexivity. }
  split; [reflexivity|].
  assert (_healpix demo_handle ≠ -1) as Hne by (simpl; lia).
  split.
  - apply (proj1 (proj2 (isWithinRange_sentinel demo_distance Z.leb demo_handle (12, 1) 3)
                   Hne) 3).
    reflexivity.
  - apply (proj1 (proj2 (isWithinRange_sentinel demo_distance Z.leb demo_handle (12, 1) 2)
                   Hne) 3).
    reflexivity.
Defined.

(** ** MultiIndexCache: read with missing parts *)

(** [__len__] is a function of the filename list alone. *)
Lemma len_declared o : len o = Z.of_nat (length (_filenameList o)) - 1.
Proof. reflexivity. Qed.

(** Parts that are all null or missing are skipped: the loop returns and the
    handle is as before. *)
Lemma read_parts_all_skipped w fns : ∀ i s,
  Forall (skipped w) fns →
  fst (read_parts w i fns s) = Ok tt ∧ self (snd (read_parts w i fns s)) = self s.
Proof.
  induction fns as [|fn rest IH]; intros i s Hall; [done|].
  inversion Hall as [|? ? Hfn Hrest]; subst.
  destruct fn as [f|]; simpl in *.
  - rewrite Hfn. simpl. unfold bind, emit. simpl.
    destruct (IH (S i) (mkSt (self s) (trace s ++ [EvWarn "Unable to get filename for astrometry index"])) Hrest)
      as [H1 H2].
    destruct (read_parts w (S i) rest _) as [r s']; simpl in *. by subst.
  - unfold bind, emit. simpl.
    destruct (IH (S i) (mkSt (self s) (trace s ++ [EvDebug "Unable to find index part of multiindex"])) Hrest)
      as [H1 H2].
    destruct (read_parts w (S i) rest _) as [r s']; simpl in *. by subst.
Qed.

(** [read] on a handle whose primary file is there and whose parts are all
    null or missing returns, with no part attached. *)
Lemma read_all_parts_skipped w o t fn0 parts :
  _mi o = None →
  _filenameList o = Some fn0 :: parts →
  path_exists w (getIndexPath w fn0) = true →
  star_file w (getIndexPath w fn0) = true →
  Forall (skipped w) parts →
  fst (read w (mkSt o t)) = Ok tt
  ∧ _mi (self (snd (read w (mkSt o t)))) = Some (mkMultiIndex (getIndexPath w fn0) [] true)
  ∧ len (self (snd (read w (mkSt o t)))) = Z.of_nat (length parts).
Proof.
  intros Hmi Hfl Hex Hstar Hall.
  unfold read, bind, get_self, MultiIndex_new, emit, set_mi. simpl.
  rewrite Hmi, Hfl, Hex. simpl. rewrite Hstar. simpl.
  match goal with |- context [read_parts w 0 parts ?s0] =>
    destruct (read_parts_all_skipped w parts 0%nat s0 Hall) as [H1 H2];
    destruct (read_parts w 0 parts s0) as [r s'] end.
  simpl in H1, H2 |- *. rewrite H2. simpl.
  split; [exact H1|]. split; [reflexivity|].
  unfold len. cbn [_filenameList]. rewrite Hfl.
  change (length (Some fn0 :: parts)) with (S (length parts)). lia.
Qed.

(** Present parts first, then a null and a missing one: [read] returns, one
    part is attached and [len] still counts three. *)
Example read_tail_handle :
  fst (read demo_world (mkSt tail_handle [])) = Ok tt
  ∧ (mi_inds <$> _mi (self (snd (read demo_world (mkSt tail_handle [])))))
    = Some [mkIndex 3 10 4 70 30]
  ∧ len tail_handle = 3.
Proof. vm_compute. done. Qed.

(** C4 (the code departs from it). A handle whose primary file exists and
    parses, whose first part is null and whose second part is on disk: [read]
    skips the null entry, attaches the second part, and then looks it up at
    its position in the filename list, which is past the end of the attached
    parts, so [read] raises IndexError.  [len] reports the two declared parts
    all the same. *)
Theorem read_part_after_gap_raises :
  path_exists demo_world (getIndexPath demo_world "idx1.fits") = true
  ∧ star_file demo_world (getIndexPath demo_world "idx1.fits") = true
  ∧ fst (read demo_world (mkSt gap_handle [])) = Raise IndexError
  ∧ (mi_inds <$> _mi (self (snd (read demo_world (mkSt gap_handle [])))))
    = Some [mkIndex 3 10 4 70 30]
  ∧ len gap_handle = 2.
Proof. vm_compute. done. Qed.

(** ** AstrometryNetCatalog: construction from the index files *)

Lemma keeps_files_keeps {A} (m : M A) : keeps m → keeps_files m.
Proof. intros Hk s. by destruct (Hk s) as (? & _). Qed.

Lemma keeps_files_bind {A B} (m : M A) (k : A → M B) :
  keeps_files m → (∀ a, keeps_files (k a)) → keeps_files (bind m k).
Proof.
  intros Hm Hk s. unfold bind. specialize (Hm s).
  destruct (m s) as [[a|e] s1]; simpl in *; [|done].
  by rewrite Hk.
Qed.

Lemma keeps_files_reload w : keeps_files (reload w).
Proof.
  unfold reload. apply keeps_files_bind; [apply keeps_files_keeps, keeps_get_self|].
  intros o. destruct (_loaded o); [apply keeps_files_keeps, keeps_ret|].
  apply keeps_files_bind; [|done].
  destruct (_mi o); apply keeps_files_keeps; [apply keeps_mi_reload | apply keeps_read].
Qed.

Lemma keeps_files_unload : keeps_files unload.
Proof.
  unfold unload. apply keeps_files_bind; [apply keeps_files_keeps, keeps_get_self|].
  intros o. destruct (negb _); [apply keeps_files_keeps, keeps_ret|].
  apply keeps_files_bind; [apply keeps_files_keeps, keeps_mi_unload|done].
Qed.

Lemma keeps_files_getitems w attr n : ∀ i, keeps_files (getitems w attr i n).
Proof.
  induction n as [|n IH]; intros i; simpl; [done|].
  apply keeps_files_bind.
  - unfold getitem. apply keeps_files_bind; [apply keeps_files_reload|].
    intros _. apply keeps_files_keeps, keeps_mi_getitem.
  - intros ind. apply keeps_files_bind; [apply IH|done].
Qed.

Lemma keeps_files_discover w : keeps_files (discover w).
Proof.
  unfold discover. apply keeps_files_bind; [apply keeps_files_reload|]. intros _.
  apply keeps_files_bind; [done|]. intros o.
  apply keeps_files_bind; [apply keeps_files_getitems|]. intros hps.
  apply keeps_files_bind; [apply keeps_files_getitems|]. intros nss.
  destruct (negb _); [done|]. destruct (negb _); done.
Qed.

Lemma init_constructed fl hp ns o :
  MultiIndexCache_init fl hp ns = Ok o → constructed o.
Proof.
  unfold MultiIndexCache_init, constructed.
  destruct (_ <? _)%nat eqn:Hlt; [done|].
  intros [= <-]. simpl. apply Nat.ltb_ge in Hlt. lia.
Qed.

(** What [fromFilenameList] returns holds the list it was given, and the
    load-state invariant. *)
Lemma fromFilenameList_ok w fl o :
  fst (fromFilenameList w fl) = Ok o →
  _filenameList o = fl ∧ constructed o ∧ loaded_has_mi o.
Proof.
  unfold fromFilenameList.
  destruct (MultiIndexCache_init fl 0 0) as [o0|e] eqn:Hinit; [|done].
  pose proof (init_constructed _ _ _ _ Hinit) as Hc.
  apply init_unloaded in Hinit as (Hfl & _ & _ & _ & Hl).
  pose proof (keeps_files_discover w (mkSt o0 [])) as Hk.
  assert (loaded_has_mi (self (mkSt o0 []))) as H0.
  { intros Hl'. simpl in *. congruence. }
  apply (pres_discover w) in H0.
  destruct (discover w (mkSt o0 [])) as [[[]|e] s1]; simpl in *; [|done].
  intros [= <-]. unfold constructed in *. rewrite Hk.
  split; [exact Hfl|]. split; [exact Hc | exact H0].
Qed.

(** The comprehension succeeds exactly when each construction does, and
    yields the handles in the order of the lists. *)
Lemma fromFilenameLists_ok w lists : ∀ inds,
  fst (fromFilenameLists w lists) = Ok inds
  ↔ Forall2 (λ fl o, fst (fromFilenameList w fl) = Ok o) lists inds.
Proof.
  induction lists as [|fl rest IH]; intros inds; simpl.
  - split.
    + intros [= <-]. constructor.
    + by inversion 1.
  - destruct (fromFilenameList w fl) as [[o|e] t] eqn:Hfl; simpl.
    + destruct (fromFilenameLists w rest) as [[os|e] t'] eqn:Hrest; simpl in *.
      * split.
        -- intros [= <-]. constructor; [by rewrite Hfl | by apply IH].
        -- inversion 1 as [|? o' ? os' Ho Hos]; subst.
           rewrite Hfl in Ho. simpl in Ho. injection Ho as <-.
           apply IH in Hos. by injection Hos as <-.
      * split; [done|].
        inversion 1 as [|? o' ? os' Ho Hos]; subst.
        apply IH in Hos. done.
    + split; [done|].
      inversion 1 as [|? o' ? os' Ho Hos]; subst.
      rewrite Hfl in Ho. done.
Qed.

Lemma zip_with_self (fs : list Filename) :
  zip_with (λ a b, [a; b]) fs fs = map (λ f, [f; f]) fs.
Proof. induction fs as [|f fs IH]; simpl; [done|]. by rewrite IH. Qed.

(** C7. Construction from the index files: when it succeeds, the registry
    holds one handle per single-index filename [f], with filename list
    [[f; f]], followed by one handle per multi-index group, in the order of the
    configuration, and each handle is the one [fromFilenameList] builds from
    its list; it succeeds exactly when each of these constructions does. *)
Theorem fromIndexFiles_shape w andConfig inds :
  let lists := map (λ f, [f; f]) (indexFiles andConfig) ++ multiIndexFiles andConfig in
  (fst (_initFromIndexFiles w andConfig) = Ok inds
   ↔ Forall2 (λ fnList o, fst (fromFilenameList w fnList) = Ok o) lists inds)
  ∧ (fst (_initFromIndexFiles w andConfig) = Ok inds →
     map _filenameList inds = lists
     ∧ length inds
       = (length (indexFiles andConfig) + length (multiIndexFiles andConfig))%nat
     ∧ ∀ i f, indexFiles andConfig !! i = Some f →
         map _filenameList inds !! i = Some [f; f]).
Proof.
  intros lists.
  assert (indexFileLists andConfig = lists) as Hlists.
  { unfold indexFileLists, lists. by rewrite zip_with_self. }
  unfold _initFromIndexFiles. rewrite Hlists.
  split; [apply fromFilenameLists_ok|].
  intros Hok. apply fromFilenameLists_ok in Hok.
  assert (map _filenameList inds = lists) as Hmap.
  { clear Hlists. induction Hok as [|fl o ls os Ho _ IH]; simpl; [done|].
    apply fromFilenameList_ok in Ho as (-> & _). by rewrite IH. }
  split; [exact Hmap|]. split.
  - rewrite <- (length_map _filenameList), Hmap. unfold lists.
    by rewrite length_app, length_map.
  - intros i f Hi. rewrite Hmap. unfold lists.
    rewrite lookup_app_l.
    + change (map (λ f0 : Filename, [f0; f0]) (indexFiles andConfig))
        with ((λ f0 : Filename, [f0; f0]) <$> indexFiles andConfig).
      by rewrite list_lookup_fmap, Hi.
    + rewrite length_map. by eapply lookup_lt_Some.
Qed.

Lemma fromIndexFiles_shape_witness :
  ∃ inds,
    fst (_initFromIndexFiles demo_world demo_config) = Ok inds
    ∧ map _filenameList inds
      = [[Some "idx1.fits"; Some "idx1.fits"]; [Some "idx2.fits"; Some "idx2.fits"]]%string
    ∧ map _healpix inds = [10; 20]
    ∧ length inds = 2%nat.
Proof.
  destruct (fst (_initFromIndexFiles demo_world demo_config)) as [inds|e] eqn:Hinit;
    [|vm_compute in Hinit; discriminate].
  exists inds. split; [reflexivity|].
  destruct (proj2 (fromIndexFiles_shape demo_world demo_config inds) Hinit)
    as (Hmap & Hlen & _).
  split; [exact Hmap|]. split; [|exact Hlen].
  vm_compute in Hinit. injection Hinit as <-. reflexivity.
Defined.

(** ** AstrometryNetCatalog: the consistency check *)

Lemma initFromCache_unfold w andConfig filename hdus :
  fits_file w filename = Some hdus →
  _initFromCache w andConfig filename
  = rbind (cache_handles hdus) (λ inds,
      if bool_decide (cacheFiles hdus = configFiles andConfig)
      then Ok inds else Raise AssertionError).
Proof. intros Hf. unfold _initFromCache. by rewrite Hf. Qed.

Lemma elem_of_concat {A} (x : A) (ls : list (list A)) :
  x ∈ concat ls ↔ ∃ l, l ∈ ls ∧ x ∈ l.
Proof.
  induction ls as [|l ls IH]; simpl.
  - split; [by intros ?%elem_of_nil | by intros (? & ?%elem_of_nil & _)].
  - rewrite elem_of_app, IH. split.
    + intros [Hx | (l' & Hl' & Hx)]; [exists l | exists l'];
        (split; [|done]); [left | by right].
    + intros (l' & [-> | Hl']%elem_of_cons & Hx); [by left | right; eauto].
Qed.

(** The filename set of a configuration does not see order, repeats or
    grouping. *)
Lemma configFiles_elem andConfig fn :
  fn ∈ configFiles andConfig
  ↔ fn ∈ indexFiles andConfig ∨ ∃ group, group ∈ multiIndexFiles andConfig ∧ fn ∈ group.
Proof.
  unfold configFiles. rewrite elem_of_list_to_set, elem_of_app, elem_of_concat.
  tauto.
Qed.

Lemma configFiles_same_elements cfg1 cfg2 :
  (∀ fn, fn ∈ concat (multiIndexFiles cfg1) ++ indexFiles cfg1
         ↔ fn ∈ concat (multiIndexFiles cfg2) ++ indexFiles cfg2) →
  configFiles cfg1 = configFiles cfg2.
Proof.
  intros Hsame. unfold configFiles. apply set_eq. intros fn.
  rewrite !elem_of_list_to_set. apply Hsame.
Qed.

(** C10. The consistency check sees the configuration's filenames as a set
    only: against the same cache file, two configurations whose declared
    filenames form the same set end the same way, so when one is accepted the
    other is accepted with the same handles, whatever the order, the repeats
    and the grouping of their filenames. *)
Theorem consistency_check_is_setwise w cfg1 cfg2 filename :
  configFiles cfg1 = configFiles cfg2 →
  _initFromCache w cfg1 filename = _initFromCache w cfg2 filename
  ∧ (∀ inds, _initFromCache w cfg1 filename = Ok inds →
             _initFromCache w cfg2 filename = Ok inds).
Proof.
  intros Hsame.
  assert (_initFromCache w cfg1 filename = _initFromCache w cfg2 filename) as Heq.
  { unfold _initFromCache. destruct (fits_file w filename); [|done]. by rewrite Hsame. }
  split; [exact Heq|]. intros inds. by rewrite Heq.
Qed.

Lemma consistency_check_is_setwise_witness :
  demo_config ≠ regrouped_config
  ∧ is_ok (_initFromCache cached_world demo_config "/data/andCache.fits") = true
  ∧ _initFromCache cached_world demo_config "/data/andCache.fits"
    = _initFromCache cached_world regrouped_config "/data/andCache.fits".
Proof.
  split; [discriminate|]. split; [vm_compute; reflexivity|].
  refine (proj1 (consistency_check_is_setwise cached_world demo_config regrouped_config
                   "/data/andCache.fits" _)).
  vm_compute. reflexivity.
Defined.

(** When the cache is allowed and present, the constructor takes it, and a
    failure there is final: the index files are not tried. *)
Lemma init_takes_cache w andConfig :
  allowCache andConfig = true →
  path_exists w (getIndexPath w _cacheFilename) = true →
  AstrometryNetCatalog_init w andConfig
  = match _initFromCache w andConfig (getIndexPath w _cacheFilename) with
    | Ok inds => (Ok (mkCatalog andConfig inds), [])
    | Raise e => (Raise e, [])
    end.
Proof. intros Ha He. unfold AstrometryNetCatalog_init. by rewrite Ha, He. Qed.

(** C2 (as amended). A cache file whose filename set differs from the
    configuration's is never accepted: [_initFromCache] raises.  It raises the
    consistency error (the failed assertion) when the two tables of the cache
    join into handles; when they do not (a row for an unknown id, a handle
    with fewer than two filenames), it raises the error of that step instead. *)
Theorem stale_cache_rejected w andConfig filename hdus :
  fits_file w filename = Some hdus →
  cacheFiles hdus ≠ configFiles andConfig →
  is_ok (_initFromCache w andConfig filename) = false
  ∧ (is_ok (cache_handles hdus) = true →
     _initFromCache w andConfig filename = Raise AssertionError)
  ∧ (∀ e, cache_handles hdus = Raise e →
     _initFromCache w andConfig filename = Raise e).
Proof.
  intros Hf Hne. rewrite (initFromCache_unfold _ _ _ _ Hf).
  rewrite bool_decide_eq_false_2 by done.
  destruct (cache_handles hdus) as [inds|e]; simpl.
  - split; [done|]. split; [done|]. intros e' He'. discriminate.
  - split; [done|]. split; [intros Hc; discriminate|]. by intros e' [= ->].
Qed.

Lemma stale_cache_rejected_witness :
  _initFromCache cached_world grown_config "/data/andCache.fits" = Raise AssertionError
  ∧ fst (AstrometryNetCatalog_init cached_world grown_config) = Raise AssertionError.
Proof.
  assert (∃ hdus, fits_file cached_world "/data/andCache.fits" = Some hdus
                  ∧ bool_decide (cacheFiles hdus = configFiles grown_config) = false
                  ∧ is_ok (cache_handles hdus) = true) as (hdus & Hf & Hne & Hok).
  { eexists. split; [vm_compute; reflexivity|]. split; vm_compute; reflexivity. }
  apply bool_decide_eq_false_1 in Hne.
  destruct (stale_cache_rejected cached_world grown_config _ hdus Hf Hne)
    as (_ & Hassert & _).
  split; [exact (Hassert Hok)|].
  rewrite init_takes_cache by (vm_compute; reflexivity).
  change (getIndexPath cached_world _cacheFilename) with "/data/andCache.fits"%string.
  by rewrite (Hassert Hok).
Defined.

(** C2 as stated fails: the cache covers one file, the configuration declares
    three, and the construction ends with the constructor's RuntimeError, not
    with the consistency error. *)
Lemma stale_short_cache_other_error :
  fits_file short_cache_world "/data/andCache.fits" = Some short_cache
  ∧ cacheFiles short_cache ≠ configFiles grown_config
  ∧ _initFromCache short_cache_world grown_config "/data/andCache.fits"
    = Raise (RuntimeError "Insufficient filenames provided for multiindex")
  ∧ _initFromCache short_cache_world grown_config "/data/andCache.fits"
    ≠ Raise AssertionError.
Proof.
  split; [reflexivity|]. split.
  - assert (bool_decide (cacheFiles short_cache = configFiles grown_config) = false)
      as Hne by (vm_compute; reflexivity).
    by apply bool_decide_eq_false_1 in Hne.
  - split; [vm_compute; reflexivity|]. vm_compute. discriminate.
Qed.

(** ** AstrometryNetCatalog: what writeCache needs *)

Lemma rmap_ok {A B} (f : A → result B) xs ys :
  rmap f xs = Ok ys ↔ Forall2 (λ x y, f x = Ok y) xs ys.
Proof.
  revert ys. induction xs as [|x xs IH]; intros ys; simpl.
  - split; [intros [= <-]; constructor | by inversion 1].
  - destruct (f x) as [y|e] eqn:Hx; simpl.
    + destruct (rmap f xs) as [ys'|e] eqn:Hxs; simpl.
      * split.
        -- intros [= <-]. constructor; [done | by apply IH].
        -- inversion 1 as [|? y' ? ys'' Hy Hys]; subst.
           apply IH in Hys. congruence.
      * split; [done|]. inversion 1 as [|? y' ? ys'' Hy Hys]; subst.
        by apply IH in Hys.
    + split; [done|]. inversion 1; congruence.
Qed.

Lemma py_len_ok fns lens :
  rmap py_len fns = Ok lens → Forall is_Some fns ∧ length lens = length fns.
Proof.
  intros Hok%rmap_ok. induction Hok as [|fn n fns lens Hfn _ [IH1 IH2]]; [done|].
  split; [|simpl; congruence].
  constructor; [|done]. destruct fn; [eauto | done].
Qed.

Lemma all_filenames_nil : all_filenames [] = [].
Proof. reflexivity. Qed.

(** The steps of [writeCache] up to the maximum filename length. *)
Lemma writeCache_ok_lengths w cat w' :
  writeCache w cat = Ok w' →
  ∃ lens longest,
    rmap py_len (all_filenames (_multiInds cat)) = Ok lens
    ∧ py_max lens = Ok longest.
Proof.
  unfold writeCache.
  destruct (rmap py_len _) as [lens|e]; simpl; [|done].
  destruct (py_max lens) as [longest|e] eqn:Hmax; simpl; [|done].
  intros _. by exists lens, longest.
Qed.

(** C9. [writeCache] on a registry without handles raises ValueError (the
    maximum over no filenames) and writes nothing; so when [writeCache]
    returns, the registry holds at least one handle, no filename in it is
    null, and each handle, as its constructor left it, has at least one
    filename. *)
Theorem writeCache_needs_handles w cat :
  (_multiInds cat = [] → writeCache w cat = Raise ValueError)
  ∧ (∀ w', writeCache w cat = Ok w' →
       _multiInds cat ≠ []
       ∧ all_filenames (_multiInds cat) ≠ []
       ∧ Forall is_Some (all_filenames (_multiInds cat))
       ∧ (Forall constructed (_multiInds cat) →
          Forall (λ o, (1 ≤ length (_filenameList o))%nat) (_multiInds cat))).
Proof.
  split.
  - intros Hnil. unfold writeCache. by rewrite Hnil.
  - intros w' (lens & longest & Hlens & Hmax)%writeCache_ok_lengths.
    apply py_len_ok in Hlens as [Hsome Hlen].
    assert (all_filenames (_multiInds cat) ≠ []) as Hne.
    { intros Hnil. rewrite Hnil in Hlen. destruct lens; [done|]. simpl in Hlen. lia. }
    split; [|split; [exact Hne|split; [exact Hsome|]]].
    + intros Hnil. apply Hne. by rewrite Hnil.
    + intros Hall. eapply Forall_impl; [exact Hall|].
      unfold constructed. intros o Ho. lia.
Qed.

Lemma writeCache_needs_handles_witness :
  writeCache demo_world (mkCatalog empty_config []) = Raise ValueError
  ∧ is_ok (writeCache demo_world demo_catalog) = true
  ∧ _multiInds demo_catalog ≠ []
  ∧ Forall (λ o, (1 ≤ length (_filenameList o))%nat) (_multiInds demo_catalog).
Proof.
  split.
  { apply (proj1 (writeCache_needs_handles demo_world (mkCatalog empty_config []))).
    reflexivity. }
  destruct (writeCache demo_world demo_catalog) as [w'|e] eqn:Hw;
    [|vm_compute in Hw; discriminate].
  split; [reflexivity|].
  destruct (proj2 (writeCache_needs_handles demo_world demo_catalog) w' Hw)
    as (Hne & _ & _ & Hall).
  split; [exact Hne|]. apply Hall.
  repeat constructor.
Defined.

(** ** generateCache: cleanup *)

(** A loop over the handles maintains what each call maintains, wherever it
    stops. *)
Lemma for_each_pres (m : M unit) inds : ∀ t,
  pres m → Forall loaded_has_mi inds →
  Forall loaded_has_mi (fst (snd (for_each m inds t))).
Proof.
  induction inds as [|o rest IH]; intros t Hm Hall; simpl; [done|].
  inversion Hall as [|? ? Ho Hrest]; subst.
  pose proof (Hm (mkSt o t) Ho) as Ho'.
  destruct (m (mkSt o t)) as [[[]|e] s]; simpl in *.
  - specialize (IH (trace s) Hm Hrest).
    destruct (for_each m rest (trace s)) as [r [rest' t']]. simpl in *.
    by constructor.
  - by constructor.
Qed.

Lemma for_each_keeps_files (m : M unit) inds : ∀ t,
  keeps_files m →
  map _filenameList (fst (snd (for_each m inds t))) = map _filenameList inds.
Proof.
  induction inds as [|o rest IH]; intros t Hm; simpl; [done|].
  pose proof (Hm (mkSt o t)) as Ho.
  destruct (m (mkSt o t)) as [[[]|e] s]; simpl in *.
  - specialize (IH (trace s) Hm).
    destruct (for_each m rest (trace s)) as [r [rest' t']]. simpl in *.
    by rewrite Ho, IH.
  - by rewrite Ho.
Qed.

(** On handles that satisfy the invariant, the [unload] loop visits every
    handle, does not raise, and leaves every handle unloaded. *)
Lemma for_each_unload inds : ∀ t,
  Forall loaded_has_mi inds →
  fst (for_each unload inds t) = Ok tt
  ∧ Forall (λ o, _loaded o = false) (fst (snd (for_each unload inds t)))
  ∧ Forall2 (λ o o', ∃ t0, o' = self (snd (unload (mkSt o t0))))
      inds (fst (snd (for_each unload inds t))).
Proof.
  induction inds as [|o rest IH]; intros t Hall; simpl.
  - repeat split; constructor.
  - inversion Hall as [|? ? Ho Hrest]; subst.
    destruct (unload_ok (mkSt o t) Ho) as [Hok Hl].
    destruct (unload (mkSt o t)) as [[[]|e] s] eqn:Hu; simpl in *; [|done].
    destruct (IH (trace s) Hrest) as (H1 & H2 & H3).
    destruct (for_each unload rest (trace s)) as [r [rest' t']]. simpl in *.
    split; [done|]. split; constructor; try done.
    exists t. by rewrite Hu.
Qed.

Lemma cache_handles_unloaded hdus inds :
  cache_handles hdus = Ok inds →
  Forall (λ o, constructed o ∧ _mi o = None ∧ _loaded o = false) inds.
Proof.
  unfold cache_handles.
  destruct (join_filenames _ _) as [filenames|e]; simpl; [|done].
  intros Hok%rmap_ok.
  induction Hok as [|r o rows os Ho _ IH]; constructor; [|done].
  destruct (filenames !! row_id r) as [l|]; [|done].
  pose proof (init_constructed _ _ _ _ Ho).
  apply init_unloaded in Ho as (_ & _ & _ & ? & ?). done.
Qed.

Lemma fromFilenameLists_handles w lists inds :
  Forall2 (λ fl o, fst (fromFilenameList w fl) = Ok o) lists inds →
  Forall (λ o, loaded_has_mi o ∧ constructed o) inds.
Proof.
  induction 1 as [|fl o ls os Ho _ IH]; constructor; [|done].
  by apply fromFilenameList_ok in Ho as (_ & ? & ?).
Qed.

(** Every handle of a registry that was constructed satisfies the load-state
    invariant and holds at least two filenames. *)
Lemma init_handles_ok w andConfig cat t :
  AstrometryNetCatalog_init w andConfig = (Ok cat, t) →
  config cat = andConfig
  ∧ Forall loaded_has_mi (_multiInds cat)
  ∧ Forall constructed (_multiInds cat).
Proof.
  unfold AstrometryNetCatalog_init.
  destruct (allowCache andConfig && path_exists w _).
  - unfold _initFromCache.
    destruct (fits_file w _) as [hdus|]; [|done].
    destruct (cache_handles hdus) as [inds|e] eqn:Hh; simpl; [|done].
    destruct (bool_decide _); [|done].
    intros [= <- <-]. simpl. apply cache_handles_unloaded in Hh.
    split; [done|]. split.
    + eapply Forall_impl; [exact Hh|]. intros o (_ & _ & Hl) Hl'. congruence.
    + eapply Forall_impl; [exact Hh|]. by intros o (? & _).
  - destruct (_initFromIndexFiles w andConfig) as [[inds|e] t'] eqn:Hinit; [|done].
    intros [= <- <-]. simpl.
    assert (fst (_initFromIndexFiles w andConfig) = Ok inds) as Hok by by rewrite Hinit.
    apply fromFilenameLists_ok, fromFilenameLists_handles in Hok.
    split; [done|]. split; (eapply Forall_impl; [exact Hok|]); by intros o [? ?].
Qed.

Lemma generate_try_handles w cat t :
  Forall loaded_has_mi (_multiInds cat) →
  Forall loaded_has_mi (fst (snd (fst (generate_try w cat t))))
  ∧ map _filenameList (fst (snd (fst (generate_try w cat t))))
    = map _filenameList (_multiInds cat).
Proof.
  intros Hall. unfold generate_try.
  pose proof (for_each_pres (reload w) (_multiInds cat) t (pres_reload w) Hall) as H1.
  pose proof (for_each_keeps_files (reload w) (_multiInds cat) t (keeps_files_reload w))
    as H2.
  destruct (for_each (reload w) (_multiInds cat) t) as [[[]|e] [inds t']]; simpl in *.
  - by destruct (writeCache w _).
  - done.
Qed.

(** A [reload] loop that returns has loaded every handle. *)
Lemma for_each_reload_ok w inds : ∀ t inds' t',
  for_each (reload w) inds t = (Ok tt, (inds', t')) →
  Forall (λ o, _loaded o = true) inds'.
Proof.
  induction inds as [|o rest IH]; intros t inds' t'; simpl.
  - intros [= <- _]. constructor.
  - destruct (reload w (mkSt o t)) as [[[]|e] s] eqn:Hr; [|done].
    destruct (for_each (reload w) rest (trace s)) as [r [rest' t'']] eqn:Hrest.
    intros [= -> <- <-]. constructor.
    + by eapply reload_ok_loaded.
    + by eapply IH.
Qed.

(** When the [try] block returns, every handle was reloaded and the cache
    was written from them. *)
Lemma generate_try_ok w cat t inds t1 w1 :
  generate_try w cat t = (Ok tt, (inds, t1), w1) →
  Forall (λ o, _loaded o = true) inds
  ∧ writeCache w (mkCatalog (config cat) inds) = Ok w1.
Proof.
  unfold generate_try.
  destruct (for_each (reload w) (_multiInds cat) t) as [[[]|e] [inds0 t0]] eqn:Hre;
    [|done].
  destruct (writeCache w _) as [w'|e] eqn:Hw; [|done].
  intros [= <- <- <-]. split; [|done]. by eapply for_each_reload_ok.
Qed.

(** C6. Guaranteed cleanup: once the registry is constructed, however the
    [try] block of [generateCache] ends (every [reload] and [writeCache]
    returned, or one of them raised), the [finally] block calls [unload] on
    every handle of the registry and none of these calls raises; so the run
    ends as the [try] block did, and every handle is left with
    [loaded == false].  When the [try] block returned, every handle had been
    reloaded and the cache written. *)
Theorem generateCache_cleanup w andConfig catalog t r inds t1 w1 :
  AstrometryNetCatalog_init w andConfig = (Ok catalog, t) →
  generate_try w catalog t = (r, (inds, t1), w1) →
  ∃ inds',
    handles (generateCache w (Some andConfig)) = Some inds'
    ∧ for_each unload inds t1 = (Ok tt, (inds', events (generateCache w (Some andConfig))))
    ∧ Forall2 (λ o o', ∃ t0, o' = self (snd (unload (mkSt o t0)))) inds inds'
    ∧ ended (generateCache w (Some andConfig)) = r
    ∧ map _filenameList inds' = map _filenameList (_multiInds catalog)
    ∧ Forall (λ o, _loaded o = false) inds'
    ∧ (r = Ok tt →
       Forall (λ o, _loaded o = true) inds
       ∧ writeCache w (mkCatalog (config catalog) inds) = Ok w1).
Proof.
  intros Hinit Htry.
  destruct (init_handles_ok _ _ _ _ Hinit) as (_ & Hinv & _).
  destruct (generate_try_handles w catalog t Hinv) as [Hinv1 Hfiles1].
  rewrite Htry in Hinv1, Hfiles1. simpl in Hinv1, Hfiles1.
  destruct (for_each_unload inds t1 Hinv1) as (Hok & Hunl & Hcalls).
  pose proof (for_each_keeps_files unload inds t1 keeps_files_unload) as Hfiles2.
  unfold generateCache. rewrite Hinit, Htry. unfold generate_finally.
  destruct (for_each unload inds t1) as [[[]|e] [inds' t2]]; simpl in *; [|done].
  exists inds'. repeat split; try done; try congruence.
  - subst r. by apply generate_try_ok in Htry as [? _].
  - subst r. by apply generate_try_ok in Htry as [_ ?].
Qed.

Lemma generateCache_cleanup_witness :
  (∃ inds',
     handles (generateCache demo_world (Some demo_config)) = Some inds'
     ∧ ended (generateCache demo_world (Some demo_config)) = Ok tt
     ∧ length inds' = 2%nat
     ∧ Forall (λ o, _loaded o = false) inds')
  ∧ (∃ inds',
     handles (generateCache readonly_world (Some demo_config)) = Some inds'
     ∧ ended (generateCache readonly_world (Some demo_config)) = Raise OSError
     ∧ length inds' = 2%nat
     ∧ Forall (λ o, _loaded o = false) inds').
Proof.
  split.
  - destruct (AstrometryNetCatalog_init demo_world demo_config) as [[cat|e] t] eqn:Hinit;
      [|vm_compute in Hinit; discriminate].
    destruct (generate_try demo_world cat t) as [[r [inds t1]] w1] eqn:Htry.
    destruct (generateCache_cleanup _ _ _ _ _ _ _ _ Hinit Htry)
      as (inds' & Hh & _ & _ & Hr & Hf & Hl & _).
    exists inds'. split; [exact Hh|]. split; [|split; [|exact Hl]].
    + rewrite Hr. vm_compute in Hinit. injection Hinit as <- <-.
      vm_compute in Htry. by injection Htry as <- _ _ _.
    + rewrite <- (length_map _filenameList), Hf, length_map.
      vm_compute in Hinit. by injection Hinit as <- _.
  - destruct (AstrometryNetCatalog_init readonly_world demo_config) as [[cat|e] t] eqn:Hinit;
      [|vm_compute in Hinit; discriminate].
    destruct (generate_try readonly_world cat t) as [[r [inds t1]] w1] eqn:Htry.
    destruct (generateCache_cleanup _ _ _ _ _ _ _ _ Hinit Htry)
      as (inds' & Hh & _ & _ & Hr & Hf & Hl & _).
    exists inds'. split; [exact Hh|]. split; [|split; [|exact Hl]].
    + rewrite Hr. vm_compute in Hinit. injection Hinit as <- <-.
      vm_compute in Htry. by injection Htry as <- _ _ _.
    + rewrite <- (length_map _filenameList), Hf, length_map.
      vm_compute in Hinit. by injection Hinit as <- _.
Defined.

(** ** The cache round trip *)

(** *** Cells *)

Lemma rstrip_clean s : ends_blank s = false → rstrip s = s.
Proof.
  induction s as [|c rest IH]; [done|]. simpl.
  destruct rest as [|c' rest'].
  - simpl. by intros ->.
  - intros Hrest. by rewrite (IH Hrest).
Qed.

Lemma str_take_all s : ∀ n, (String.length s ≤ n)%nat → str_take n s = s.
Proof.
  induction s as [|c rest IH]; intros n Hn; [by destruct n|].
  destruct n as [|n]; simpl in *; [lia|].
  rewrite IH; [done | lia].
Qed.

Lemma wrap64_in_range z : in_int64 z → wrap64 z = z.
Proof.
  unfold in_int64, wrap64. intros Hz.
  rewrite Z.mod_small; lia.
Qed.

Lemma foldl_max_le l : ∀ a x, x = a ∨ x ∈ l → (x ≤ foldl Nat.max a l)%nat.
Proof.
  induction l as [|b l IH]; intros a x Hx; simpl.
  - destruct Hx as [->|Hx]; [done | by apply elem_of_nil in Hx].
  - destruct Hx as [->|[->|Hx]%elem_of_cons].
    + etrans; [|apply (IH (a `max` b)%nat); by left]. lia.
    + etrans; [|apply (IH (a `max` b)%nat); by left]. lia.
    + apply IH. by right.
Qed.

Lemma py_max_bound lens longest :
  py_max lens = Ok longest → Forall (λ n, (n ≤ longest)%nat) lens.
Proof.
  destruct lens as [|a l]; [done|]. simpl. intros [= <-].
  apply Forall_forall. intros x Hx. apply foldl_max_le.
  apply elem_of_cons in Hx. tauto.
Qed.

(** *** Filename lists without null entries *)

Lemma storable_names fns :
  Forall (λ fn, storable fn = true) fns →
  fns = map Some (omap id fns) ∧ Forall (λ s, ends_blank s = false) (omap id fns).
Proof.
  induction 1 as [|fn fns Hfn _ [IH1 IH2]]; [done|].
  destruct fn as [s|]; [|done]. simpl in *.
  split; [f_equal; exact IH1|].
  constructor; [|exact IH2]. by destruct (ends_blank s).
Qed.

Lemma py_len_names l : rmap py_len (map Some l) = Ok (map String.length l).
Proof. induction l as [|s l IH]; simpl; [done|]. by rewrite IH. Qed.

Lemma all_filenames_names inds :
  Forall (λ o, _filenameList o = map Some (names o)) inds →
  all_filenames inds = map Some (concat (map names inds)).
Proof.
  unfold all_filenames. induction 1 as [|o rest Ho _ IH]; simpl; [done|].
  by rewrite map_app, <- Ho, IH.
Qed.

(** *** Filling the filename table *)

Lemma fill_filenames_ok width j l : ∀ done k,
  Forall (λ s, (String.length s ≤ width)%nat) l →
  (length l ≤ k)%nat →
  fill_filenames width j (map Some l) (length done) (done ++ replicate k blank_row)
  = Ok ((length done + length l)%nat,
        (done ++ map (mkFilenameRow j) l) ++ replicate (k - length l) blank_row).
Proof.
  induction l as [|s l IH]; intros done k Hw Hk; simpl.
  - by rewrite Nat.add_0_r, Nat.sub_0_r, app_nil_r.
  - inversion Hw as [|? ? Hs Hl]; subst. simpl in Hk.
    destruct k as [|k]; [lia|].
    rewrite length_app. simpl.
    replace (length done <? length done + S (length (replicate k blank_row)))%nat
      with true by (symmetry; apply Nat.ltb_lt; lia).
    rewrite insert_app_r_alt by lia. rewrite Nat.sub_diag. simpl.
    rewrite (str_take_all s width Hs).
    specialize (IH (done ++ [mkFilenameRow j s]) k Hl ltac:(lia)).
    rewrite length_app in IH. simpl in IH. rewrite Nat.add_1_r in IH.
    rewrite <- app_assoc in IH. simpl in IH. rewrite IH.
    f_equal. f_equal; [lia|]. by rewrite <- !app_assoc.
Qed.

Lemma numFilenames_cons o rest :
  numFilenames (o :: rest) = (length (_filenameList o) + numFilenames rest)%nat.
Proof. reflexivity. Qed.

Lemma fill_second_ok width inds : ∀ j done k,
  Forall (λ o, _filenameList o = map Some (names o)
               ∧ Forall (λ s, (String.length s ≤ width)%nat) (names o)) inds →
  (numFilenames inds ≤ k)%nat →
  fill_second width j inds (length done) (done ++ replicate k blank_row)
  = Ok ((done ++ all_rows j inds) ++ replicate (k - numFilenames inds) blank_row).
Proof.
  induction inds as [|o rest IH]; intros j done k Hall Hk; simpl.
  - by rewrite Nat.sub_0_r, app_nil_r.
  - inversion Hall as [|? ? [Hfl Hw] Hrest]; subst.
    rewrite numFilenames_cons in Hk |- *.
    assert (length (_filenameList o) = length (names o)) as Hlen.
    { rewrite Hfl at 1. by rewrite length_map. }
    rewrite Hfl at 1.
    rewrite (fill_filenames_ok width (Z.of_nat j) (names o) done k Hw) by lia.
    simpl.
    specialize (IH (S j) (done ++ map (mkFilenameRow (Z.of_nat j)) (names o))
                  (k - length (names o))%nat Hrest ltac:(lia)).
    rewrite length_app, length_map in IH. rewrite IH.
    f_equal. rewrite <- !app_assoc. do 4 f_equal. lia.
Qed.

(** *** Reading the tables back *)

Lemma field_filename_all_rows inds : ∀ j,
  Forall (λ o, Forall (λ s, ends_blank s = false) (names o)) inds →
  field_filename (all_rows j inds) = concat (map names inds).
Proof.
  unfold field_filename.
  induction inds as [|o rest IH]; intros j Hall; simpl; [done|].
  inversion Hall as [|? ? Ho Hrest]; subst.
  rewrite map_app, (IH (S j) Hrest). f_equal.
  rewrite map_map. simpl. clear -Ho.
  induction Ho as [|s l Hs _ IHl]; simpl; [done|].
  by rewrite (rstrip_clean s Hs), IHl.
Qed.

(** The filename rows of the handles from [j], as (id, filename) pairs. *)
Lemma zip_all_rows inds : ∀ j,
  Forall (λ o, Forall (λ s, ends_blank s = false) (names o)) inds →
  zip (map frow_id (all_rows j inds)) (field_filename (all_rows j inds))
  = match inds with
    | [] => []
    | o :: rest =>
        map (λ s, (Z.of_nat j, s)) (names o)
        ++ zip (map frow_id (all_rows (S j) rest)) (field_filename (all_rows (S j) rest))
    end.
Proof.
  intros j Hall. destruct inds as [|o rest]; [done|].
  inversion Hall as [|? ? Ho Hrest]; subst. simpl.
  unfold field_filename. rewrite !map_app, !map_map. simpl.
  rewrite zip_with_app by (by rewrite !length_map).
  f_equal. clear -Ho.
  induction Ho as [|s l Hs _ IHl]; simpl; [done|].
  by rewrite (rstrip_clean s Hs), IHl.
Qed.

Lemma join_filenames_app m r1 : ∀ r2,
  join_filenames m (r1 ++ r2)
  = rbind (join_filenames m r1) (λ m', join_filenames m' r2).
Proof.
  revert m. induction r1 as [|[id2 fn] r1 IH]; intros m r2; simpl; [done|].
  destruct (m !! id2); [apply IH | done].
Qed.

(** The rows of one handle append its filenames, in order, to its list. *)
Lemma join_filenames_block (j : Z) l' : ∀ (m : gmap Z (list string)) l,
  m !! j = Some l →
  join_filenames m (map (λ s, (j, s)) l') = Ok (<[j := l ++ l']> m).
Proof.
  induction l' as [|s l' IH]; intros m l Hm; simpl.
  - by rewrite app_nil_r, insert_id.
  - rewrite Hm. rewrite (IH _ (l ++ [s])) by apply lookup_insert_eq.
    by rewrite insert_insert_eq, <- app_assoc.
Qed.

Lemma join_filenames_all inds : ∀ j (m : gmap Z (list string)),
  Forall (λ o, Forall (λ s, ends_blank s = false) (names o)) inds →
  (∀ i, (i < length inds)%nat → m !! Z.of_nat (j + i) = Some []) →
  ∃ m',
    join_filenames m
      (zip (map frow_id (all_rows j inds)) (field_filename (all_rows j inds))) = Ok m'
    ∧ (∀ i o, inds !! i = Some o → m' !! Z.of_nat (j + i) = Some (names o))
    ∧ (∀ z, z < Z.of_nat j → m' !! z = m !! z).
Proof.
  induction inds as [|o rest IH]; intros j m Hall Hm.
  - exists m. split; [done|]. split; [|done]. intros i o Hi. by rewrite lookup_nil in Hi.
  - rewrite (zip_all_rows _ j Hall).
    inversion Hall as [|? ? Ho Hrest]; subst.
    rewrite join_filenames_app.
    rewrite (join_filenames_block (Z.of_nat j) (names o) m []).
    2:{ specialize (Hm 0%nat). rewrite Nat.add_0_r in Hm. apply Hm. simpl. lia. }
    simpl.
    destruct (IH (S j) (<[Z.of_nat j := names o]> m) Hrest) as (m' & Hjoin & Hin & Hout).
    { intros i Hi. rewrite lookup_insert_ne by lia.
      replace (S j + i)%nat with (j + S i)%nat by lia. apply Hm. simpl. lia. }
    exists m'. split; [exact Hjoin|]. split.
    + intros [|i] o' Hi; simpl in Hi.
      * injection Hi as <-. rewrite Hout by lia.
        rewrite Nat.add_0_r. apply lookup_insert_eq.
      * replace (j + S i)%nat with (S j + i)%nat by lia. by apply Hin.
    + intros z Hz. rewrite Hout by lia. apply lookup_insert_ne. lia.
Qed.

Lemma empty_lists_lookup ids z : z ∈ ids → empty_lists ids !! z = Some [].
Proof.
  unfold empty_lists.
  assert (∀ (m : gmap Z (list string)),
            z ∈ ids ∨ m !! z = Some [] →
            foldl (λ m i, <[i := []]> m) m ids !! z = Some []) as Hgen.
  { induction ids as [|i ids IH]; intros m Hz; simpl.
    - destruct Hz as [Hz|Hz]; [by apply elem_of_nil in Hz | done].
    - apply IH. destruct Hz as [[->|Hz]%elem_of_cons|Hz].
      + right. apply lookup_insert_eq.
      + by left.
      + right. destruct (decide (i = z)) as [->|Hne];
          [apply lookup_insert_eq | by rewrite lookup_insert_ne]. }
  intros Hz. apply Hgen. by left.
Qed.

Lemma imap_handle_rows inds : ∀ j,
  imap (λ i ind, mkHandleRow (Z.of_nat (j + i)) (wrap64 (_healpix ind))
                   (wrap64 (_nside ind))) inds
  = handle_rows j inds.
Proof.
  induction inds as [|o rest IH]; intros j; simpl; [done|].
  rewrite Nat.add_0_r. f_equal. rewrite <- (IH (S j)).
  apply imap_ext. intros i x _. simpl. do 2 f_equal. lia.
Qed.

Lemma handle_rows_ids inds : ∀ j i,
  (i < length inds)%nat → Z.of_nat (j + i) ∈ map row_id (handle_rows j inds).
Proof.
  induction inds as [|o rest IH]; intros j i Hi; simpl in *; [lia|].
  destruct i as [|i].
  - rewrite Nat.add_0_r. apply elem_of_cons. by left.
  - apply elem_of_cons. right.
    replace (j + S i)%nat with (S j + i)%nat by lia. apply IH. lia.
Qed.

(** One handle per row of the handle table, built from its joined list. *)
Lemma rebuild_handles (m : gmap Z (list string)) inds : ∀ j,
  Forall (λ o, constructed o ∧ _filenameList o = map Some (names o)
               ∧ in_int64 (_healpix o) ∧ in_int64 (_nside o)) inds →
  (∀ i o, inds !! i = Some o → m !! Z.of_nat (j + i) = Some (names o)) →
  rmap (λ r, match m !! row_id r with
             | None => Raise KeyError
             | Some l => MultiIndexCache_init (map Some l) (row_healpix r) (row_nside r)
             end) (handle_rows j inds)
  = Ok (map unloaded_copy inds).
Proof.
  induction inds as [|o rest IH]; intros j Hall Hm; simpl; [done|].
  inversion Hall as [|? ? (Hc & Hfl & Hhp & Hns) Hrest]; subst.
  pose proof (Hm 0%nat o eq_refl) as H0. rewrite Nat.add_0_r in H0.
  rewrite (IH (S j) Hrest).
  2:{ intros i o' Hi. replace (S j + i)%nat with (j + S i)%nat by lia. by apply Hm. }
  rewrite H0, <- Hfl. unfold MultiIndexCache_init.
  unfold constructed in Hc.
  replace (length (_filenameList o) <? 2)%nat with false
    by (symmetry; apply Nat.ltb_ge; lia).
  simpl. by rewrite (wrap64_in_range _ Hhp), (wrap64_in_range _ Hns).
Qed.

(** *** writeCache, then _initFromCache *)

Lemma storable_handles_names inds :
  Forall storable_handle inds →
  Forall (λ o, _filenameList o = map Some (names o)) inds
  ∧ Forall (λ o, Forall (λ s, ends_blank s = false) (names o)) inds.
Proof.
  induction 1 as [|o rest (Hfns & _ & _) _ [IH1 IH2]]; [done|].
  apply storable_names in Hfns as [H1 H2]. split; by constructor.
Qed.

(** What [writeCache] writes for a registry the cache can hold. *)
Lemma writeCache_ok w cat :
  _multiInds cat ≠ [] →
  Forall constructed (_multiInds cat) →
  Forall storable_handle (_multiInds cat) →
  can_write w (getIndexPath w _cacheFilename) = true →
  ∃ width,
    writeCache w cat
    = writeto w (getIndexPath w _cacheFilename)
        (mkCacheFile (handle_rows 0 (_multiInds cat)) width (all_rows 0 (_multiInds cat))).
Proof.
  intros Hne Hcons Hstor Hcw. destruct cat as [cfg inds]. simpl in *.
  destruct (storable_handles_names inds Hstor) as [Hnames Hclean].
  unfold writeCache. simpl.
  rewrite (all_filenames_names inds Hnames), py_len_names. cbn [rbind].
  destruct (py_max (map String.length (concat (map names inds)))) as [longest|e] eqn:Hmax.
  2:{ exfalso. destruct inds as [|o rest]; [done|].
      inversion Hcons as [|? ? Ho _]; inversion Hnames as [|? ? Hfl _]; subst.
      unfold constructed in Ho. rewrite Hfl, length_map in Ho.
      simpl in Hmax. destruct (names o); simpl in *; [lia | done]. }
  simpl. exists (longest + 1)%nat.
  pose proof (imap_handle_rows inds 0) as Himap. simpl in Himap. rewrite Himap.
  apply py_max_bound in Hmax.
  assert (Forall (λ o, _filenameList o = map Some (names o)
                       ∧ Forall (λ s, (String.length s ≤ longest + 1)%nat) (names o)) inds)
    as Hfit.
  { apply Forall_forall. intros o Ho. split.
    - by eapply Forall_forall in Hnames.
    - apply Forall_forall. intros s Hs.
      eapply Forall_forall in Hmax.
      + etrans; [exact Hmax|]. lia.
      + apply (list_elem_of_fmap_2 String.length). apply elem_of_concat.
        exists (names o). split; [|done]. by apply (list_elem_of_fmap_2 names). }
  pose proof (fill_second_ok (longest + 1) inds 0 [] (numFilenames inds) Hfit
                ltac:(lia)) as Hfill.
  simpl in Hfill. unfold numFilenames in Hfill. rewrite Hfill. cbn [rbind].
  by rewrite Nat.sub_diag, app_nil_r.
Qed.

(** What [_initFromCache] makes of such a file. *)
Lemma cache_handles_written inds width :
  Forall constructed inds →
  Forall storable_handle inds →
  cache_handles (mkCacheFile (handle_rows 0 inds) width (all_rows 0 inds))
  = Ok (map unloaded_copy inds).
Proof.
  intros Hcons Hstor.
  destruct (storable_handles_names inds Hstor) as [Hnames Hclean].
  unfold cache_handles. simpl.
  destruct (join_filenames_all inds 0 (empty_lists (map row_id (handle_rows 0 inds))) Hclean)
    as (m' & Hjoin & Hin & _).
  { intros i Hi. apply empty_lists_lookup. by apply handle_rows_ids. }
  rewrite Hjoin. simpl.
  apply (rebuild_handles m' inds 0); [|exact Hin].
  apply Forall_forall. intros o Ho.
  eapply Forall_forall in Hcons, Hstor, Hnames; try exact Ho.
  destruct Hstor as (_ & ? & ?). done.
Qed.

Lemma cacheFiles_written inds width :
  Forall storable_handle inds →
  cacheFiles (mkCacheFile (handle_rows 0 inds) width (all_rows 0 inds))
  = list_to_set (all_filenames inds).
Proof.
  intros Hstor. destruct (storable_handles_names inds Hstor) as [Hnames Hclean].
  unfold cacheFiles. simpl.
  by rewrite (field_filename_all_rows inds 0 Hclean), (all_filenames_names inds Hnames).
Qed.

Lemma map_unloaded_copy inds :
  length (map unloaded_copy inds) = length inds
  ∧ map _filenameList (map unloaded_copy inds) = map _filenameList inds
  ∧ map _healpix (map unloaded_copy inds) = map _healpix inds
  ∧ map _nside (map unloaded_copy inds) = map _nside inds.
Proof. by rewrite length_map, !map_map. Qed.

(** C1 (as amended). Cache round trip: for every registry of N ≥ 1 handles
    whose filenames are strings without a trailing blank, whose healpix and
    nside fit 64 bits, and whose filenames form the set the configuration
    declares, on a disk that can be written, [writeCache] returns and
    [_initFromCache] on the file it wrote returns exactly N handles, not
    loaded, with the filename lists, healpix and nside of the original, in the
    same registry order. *)
Theorem cache_round_trip w cat :
  _multiInds cat ≠ [] →
  Forall constructed (_multiInds cat) →
  Forall storable_handle (_multiInds cat) →
  consistent cat →
  can_write w (getIndexPath w _cacheFilename) = true →
  round_trips w cat
  ∧ ∃ w', writeCache w cat = Ok w'
      ∧ _initFromCache w' (config cat) (getIndexPath w' _cacheFilename)
        = Ok (map unloaded_copy (_multiInds cat)).
Proof.
  intros Hne Hcons Hstor Hcfg Hcw.
  destruct (writeCache_ok w cat Hne Hcons Hstor Hcw) as [width Hwrite].
  unfold writeto in Hwrite. rewrite Hcw in Hwrite.
  match type of Hwrite with _ = Ok ?w0 => set (w' := w0) in * end.
  assert (_initFromCache w' (config cat) (getIndexPath w' _cacheFilename)
          = Ok (map unloaded_copy (_multiInds cat))) as Hread.
  { change (getIndexPath w' _cacheFilename) with (getIndexPath w _cacheFilename).
    unfold _initFromCache, w'. simpl.
    rewrite bool_decide_eq_true_2 by done.
    rewrite (cache_handles_written _ width Hcons Hstor). simpl.
    rewrite (cacheFiles_written _ width Hstor).
    by rewrite bool_decide_eq_true_2. }
  split; [|by exists w'].
  exists w', (map unloaded_copy (_multiInds cat)).
  split; [exact Hwrite|]. split; [exact Hread|]. apply map_unloaded_copy.
Qed.

Lemma cache_round_trip_witness :
  round_trips demo_world demo_catalog
  ∧ ∃ w', writeCache demo_world demo_catalog = Ok w'
      ∧ _initFromCache w' demo_config (getIndexPath w' _cacheFilename)
        = Ok [demo_handle;
              mkMultiIndexCache [Some "idx2.fits"; Some "idx2.fits"]%string 20 4 None false].
Proof.
  apply (cache_round_trip demo_world demo_catalog).
  - discriminate.
  - repeat constructor.
  - repeat constructor; vm_compute; congruence.
  - vm_compute. reflexivity.
  - reflexivity.
Defined.

(** C1 as stated fails for the registry of a configuration without index
    files: the constructor builds it, the disk can be written, and
    [writeCache] raises ValueError, so there is no cache to read back. *)
Lemma empty_registry_no_round_trip :
  AstrometryNetCatalog_init demo_world empty_config = (Ok (mkCatalog empty_config []), [])
  ∧ consistent (mkCatalog empty_config [])
  ∧ can_write demo_world (getIndexPath demo_world _cacheFilename) = true
  ∧ writeCache demo_world (mkCatalog empty_config []) = Raise ValueError
  ∧ ¬ round_trips demo_world (mkCatalog empty_config []).
Proof.
  split; [reflexivity|]. split; [vm_compute; reflexivity|]. split; [reflexivity|].
  split; [reflexivity|].
  intros (w' & inds' & Hw & _). discriminate.
Qed.

(** A handle with a null part, put into a registry by hand: [writeCache]
    raises TypeError at [len(fn)]. *)
Example writeCache_null_filename :
  writeCache demo_world (mkCatalog demo_config [gap_handle]) = Raise TypeError.
Proof. reflexivity. Qed.

(** The filename lists of the handles built from the index files. *)
Lemma initFromIndexFiles_files w andConfig inds :
  fst (_initFromIndexFiles w andConfig) = Ok inds →
  map _filenameList inds
  = map (λ f, [f; f]) (indexFiles andConfig) ++ multiIndexFiles andConfig.
Proof.
  unfold _initFromIndexFiles, indexFileLists. rewrite zip_with_self.
  intros Hok%fromFilenameLists_ok.
  induction Hok as [|fl o ls os Ho _ IH]; simpl; [done|].
  apply fromFilenameList_ok in Ho as (-> & _). by rewrite IH.
Qed.

(** The registry built from the index files satisfies the registry
    invariant. *)
Lemma initFromIndexFiles_consistent w andConfig inds :
  fst (_initFromIndexFiles w andConfig) = Ok inds →
  consistent (mkCatalog andConfig inds).
Proof.
  intros Hok. pose proof (initFromIndexFiles_files w andConfig inds Hok) as Hmap.
  unfold consistent, all_filenames, configFiles. simpl. rewrite Hmap.
  apply set_eq. intros fn.
  rewrite !elem_of_list_to_set, elem_of_app, !elem_of_concat.
  split.
  - intros (l & [Hl|Hl]%elem_of_app & Hfn).
    + right. apply list_elem_of_fmap in Hl as (f & -> & Hf).
      by apply elem_of_cons in Hfn as [->|[->|?%elem_of_nil]%elem_of_cons].
    + left. eauto.
  - intros [(l & Hl & Hfn)|Hfn].
    + exists l. split; [|done]. apply elem_of_app. by right.
    + exists [fn; fn]. split; [|by left]. apply elem_of_app. left.
      by apply (list_elem_of_fmap_2 (λ f, [f; f])).
Qed.

(** * Further properties *)

(** ** getIndexPath *)





(** ** The lifecycle of a handle *)

Lemma reload_raise_unloaded w s e :
  fst (reload w s) = Raise e → _loaded (self (snd (reload w s))) = false.
Proof.
  unfold reload, bind, get_self. simpl.
  destruct (_loaded (self s)) eqn:Hl; [done|].
  destruct (_mi (self s)).
  - pose proof (keeps_mi_reload w s) as (_ & _ & _ & Hl' & _).
    destruct (mi_reload w s) as [[[]|e'] s1]; simpl in *; [done|]. congruence.
  - pose proof (keeps_read w s) as (_ & _ & _ & Hl' & _).
    destruct (read w s) as [[[]|e'] s1]; simpl in *; [done|]. congruence.
Qed.

(** X2. After a call of [reload], the [loaded] flag tells whether the call
    returned: it is set exactly when [reload] did not raise. *)
Theorem reload_flag_iff_returned w s :
  _loaded (self (snd (reload w s))) = true ↔ fst (reload w s) = Ok tt.
Proof.
  destruct (reload w s) as [[[]|e] s1] eqn:Hr; simpl.
  - split; [done|]. intros _. by eapply reload_ok_loaded.
  - pose proof (reload_raise_unloaded w s e) as Hl. rewrite Hr in Hl.
    simpl in Hl. rewrite (Hl eq_refl). done.
Qed.

(** X3. [unload] followed by [reload] restores a loaded handle: on a loaded
    handle whose native structure is in memory and can be reloaded, the two
    calls make exactly the native [unload] and [reload] calls, no file is read
    again, and the handle is as it was. *)
Theorem unload_reload_restores w s mi :
  _loaded (self s) = true →
  _mi (self s) = Some mi →
  mi_resident mi = true →
  can_reload w (mi_name mi) = true →
  unload s
  = (Ok tt, mkSt (mkMultiIndexCache (_filenameList (self s)) (_healpix (self s))
                    (_nside (self s))
                    (Some (mkMultiIndex (mi_name mi) (mi_inds mi) false)) false)
               (trace s ++ [EvUnload (mi_name mi)]))
  ∧ reload w (snd (unload s))
    = (Ok tt, mkSt (self s) (trace s ++ [EvUnload (mi_name mi); EvReload (mi_name mi)])).
Proof.
  intros Hl Hmi Hres Hcan.
  destruct s as [[fl hp ns m l] t]. simpl in *. subst.
  destruct mi as [name inds res]. simpl in *. subst.
  split; [reflexivity|].
  unfold unload, reload, mi_unload, mi_reload, with_mi, bind, get_self, emit,
    set_mi, set_loaded. simpl. rewrite Hcan. simpl.
  by rewrite <- app_assoc.
Qed.

Lemma unload_reload_restores_witness :
  let s := snd (reload demo_world (mkSt demo_handle [])) in
  reload demo_world (snd (unload s))
  = (Ok tt, mkSt (self s)
              (trace s ++ [EvUnload "/data/idx1.fits"; EvReload "/data/idx1.fits"])).
Proof.
  refine (proj2 (unload_reload_restores demo_world
                   (snd (reload demo_world (mkSt demo_handle [])))
                   (mkMultiIndex "/data/idx1.fits" [mkIndex 1 10 4 100 50] true)
                   _ _ _ _)); reflexivity.
Defined.

(** X4. A [read] that raises is not resumed.  When [read] raises, either the
    handle is as it was (the primary file was null, missing or unreadable), or
    the native structure stays in place with the parts attached so far; then
    the next [read] returns at once, leaving state and trace alone, and the
    remaining parts are never attached. *)
Theorem read_raise_not_resumed w s e s1 :
  read w s = (Raise e, s1) →
  self s1 = self s
  ∨ (is_Some (_mi (self s1)) ∧ read w s1 = (Ok tt, s1)).
Proof.
  unfold read at 1. unfold bind, get_self. simpl.
  destruct (_mi (self s)) eqn:Hmi; [done|].
  destruct (_filenameList (self s)) as [|[fn0|] parts].
  - intros [= _ <-]. by left.
  - destruct (negb _).
    + intros [= _ <-]. by left.
    + unfold MultiIndex_new, bind, emit. simpl.
      destruct (star_file w _); simpl.
      * intros Hparts. right.
        pose proof (keeps_read_parts w parts 0%nat) as Hk.
        match type of Hparts with read_parts _ _ _ ?s0 = _ => specialize (Hk s0) end.
        rewrite Hparts in Hk. destruct Hk as (_ & _ & _ & _ & Hk). simpl in Hk.
        assert (is_Some (_mi (self s1))) as [mi' Hmi'] by (apply Hk; eauto).
        split; [eauto|].
        unfold read, bind, get_self. simpl. by rewrite Hmi'.
      * intros [= _ <-]. by left.
  - intros [= _ <-]. by left.
Qed.

Lemma read_raise_not_resumed_witness :
  let s1 := snd (read demo_world (mkSt gap_handle [])) in
  fst (read demo_world (mkSt gap_handle [])) = Raise IndexError
  ∧ (self s1 = gap_handle ∨ (is_Some (_mi (self s1)) ∧ read demo_world s1 = (Ok tt, s1))).
Proof.
  split; [reflexivity|].
  apply (read_raise_not_resumed demo_world (mkSt gap_handle []) IndexError).
  reflexivity.
Defined.

(** *** What the lifecycle never changes *)

Lemma keeps_meta_keeps {A} (m : M A) : keeps m → keeps_meta m.
Proof. intros Hk s. destruct (Hk s) as (? & ? & ? & _). done. Qed.

Lemma keeps_meta_bind {A B} (m : M A) (k : A → M B) :
  keeps_meta m → (∀ a, keeps_meta (k a)) → keeps_meta (bind m k).
Proof.
  intros Hm Hk s. unfold bind. specialize (Hm s).
  destruct (m s) as [[a|e] s1]; simpl in *; [|done].
  destruct Hm as (<- & <- & <-). apply Hk.
Qed.

Lemma keeps_meta_set_loaded b : keeps_meta (set_loaded b).
Proof. by intros s. Qed.

Lemma keeps_meta_reload w : keeps_meta (reload w).
Proof.
  unfold reload. apply keeps_meta_bind; [apply keeps_meta_keeps, keeps_get_self|].
  intros o. destruct (_loaded o); [apply keeps_meta_keeps, keeps_ret|].
  apply keeps_meta_bind; [|intros; apply keeps_meta_set_loaded].
  destruct (_mi o); apply keeps_meta_keeps; [apply keeps_mi_reload | apply keeps_read].
Qed.

Lemma keeps_meta_unload : keeps_meta unload.
Proof.
  unfold unload. apply keeps_meta_bind; [apply keeps_meta_keeps, keeps_get_self|].
  intros o. destruct (negb _); [apply keeps_meta_keeps, keeps_ret|].
  apply keeps_meta_bind; [apply keeps_meta_keeps, keeps_mi_unload|].
  intros; apply keeps_meta_set_loaded.
Qed.

Lemma keeps_meta_run_op w o : keeps_meta (run_op w o).
Proof.
  destruct o; [apply keeps_meta_keeps, keeps_read | apply keeps_meta_reload
              | apply keeps_meta_unload].
Qed.

(** X5. No sequence of [read], [reload] and [unload] calls, returning or
    raising, changes what the constructor stored: the filename list, healpix
    and nside stay, so [len] keeps reporting the declared parts (at least
    one), whatever was attached. *)
Theorem lifecycle_keeps_metadata w fl hp ns o t ops :
  MultiIndexCache_init fl hp ns = Ok o →
  let s := run_ops w ops (mkSt o t) in
  _filenameList (self s) = fl
  ∧ _healpix (self s) = hp
  ∧ _nside (self s) = ns
  ∧ len (self s) = Z.of_nat (length fl) - 1
  ∧ 1 ≤ len (self s).
Proof.
  intros Hinit. pose proof (init_constructed _ _ _ _ Hinit) as Hc.
  apply init_unloaded in Hinit as (Hfl & Hhp & Hns & _).
  assert (∀ s0, _filenameList (self (run_ops w ops s0)) = _filenameList (self s0)
                ∧ _healpix (self (run_ops w ops s0)) = _healpix (self s0)
                ∧ _nside (self (run_ops w ops s0)) = _nside (self s0)) as Hrun.
  { induction ops as [|op ops IH]; intros s0; simpl; [done|].
    destruct (IH (snd (run_op w op s0))) as (-> & -> & ->).
    apply keeps_meta_run_op. }
  destruct (Hrun (mkSt o t)) as (H1 & H2 & H3). simpl in *.
  unfold constructed in Hc. rewrite Hfl in Hc.
  unfold len. rewrite H1, H2, H3, Hfl.
  repeat split; try done. lia.
Qed.

Lemma lifecycle_keeps_metadata_witness :
  let s := run_ops demo_world [OpReload; OpUnload; OpRead; OpReload]
             (mkSt demo_handle []) in
  _filenameList (self s) = [Some "idx1.fits"; Some "idx1.fits"]%string
  ∧ _healpix (self s) = 10
  ∧ _nside (self s) = 4
  ∧ len (self s) = Z.of_nat 2 - 1
  ∧ 1 ≤ len (self s).
Proof.
  apply (lifecycle_keeps_metadata demo_world
           [Some "idx1.fits"; Some "idx1.fits"]%string 10 4 demo_handle []).
  reflexivity.
Defined.

(** ** read: which parts get attached *)

(** Parts that are all on disk and readable, followed by null or missing
    entries: the loop attaches the former in order and skips the latter. *)
Lemma read_parts_present_then_skipped w skip pres inds :
  Forall2 (λ f ind, path_exists w (getIndexPath w f) = true
                    ∧ index_file w (getIndexPath w f) = Some ind) pres inds →
  Forall (skipped w) skip →
  ∀ s name inds0 res,
    _mi (self s) = Some (mkMultiIndex name inds0 res) →
    fst (read_parts w (length inds0) (map Some pres ++ skip) s) = Ok tt
    ∧ self (snd (read_parts w (length inds0) (map Some pres ++ skip) s))
      = with_native (self s) (mkMultiIndex name (inds0 ++ inds) res).
Proof.
  intros Hpres Hskip.
  induction Hpres as [|f ind pres inds [Hex Hind] _ IH]; intros s name inds0 res Hmi.
  - simpl. destruct (read_parts_all_skipped w skip (length inds0) s Hskip) as [H1 H2].
    split; [exact H1|]. rewrite H2, app_nil_r. unfold with_native.
    destruct s as [[fl hp ns m l] t]. simpl in *. by subst.
  - simpl. rewrite Hex. simpl.
    unfold bind at 1. unfold emit at 1. simpl.
    unfold bind at 1. unfold mi_addIndex, with_mi, bind, get_self, emit, set_mi. simpl.
    rewrite Hmi. simpl. rewrite Hind. simpl.
    unfold mi_getitem, with_mi, bind, get_self. simpl.
    rewrite lookup_app_r by lia. rewrite Nat.sub_diag. simpl.
    match goal with |- context [read_parts w (S (length inds0)) _ ?s0] =>
      destruct (IH s0 name (inds0 ++ [ind]) res eq_refl) as [H1 H2] end.
    rewrite length_app in H1, H2. simpl in H1, H2. rewrite Nat.add_1_r in H1, H2.
    split; [exact H1|]. rewrite H2. unfold with_native. simpl.
    by rewrite <- app_assoc.
Qed.

(** X6. Missing-part tolerance as the code has it: when the primary file is
    on disk and readable, the present parts come first and are readable, and
    every later entry is null or missing, [read] returns, the present parts
    are attached in order, and nothing else of the handle changes. *)
Theorem read_present_then_skipped w o t fn0 pres skip inds :
  _mi o = None →
  _filenameList o = Some fn0 :: map Some pres ++ skip →
  path_exists w (getIndexPath w fn0) = true →
  star_file w (getIndexPath w fn0) = true →
  Forall2 (λ f ind, path_exists w (getIndexPath w f) = true
                    ∧ index_file w (getIndexPath w f) = Some ind) pres inds →
  Forall (skipped w) skip →
  fst (read w (mkSt o t)) = Ok tt
  ∧ self (snd (read w (mkSt o t)))
    = with_native o (mkMultiIndex (getIndexPath w fn0) inds true).
Proof.
  intros Hmi Hfl Hex Hstar Hpres Hskip.
  unfold read, bind, get_self, MultiIndex_new, emit, set_mi. simpl.
  rewrite Hmi, Hfl, Hex. simpl. rewrite Hstar. simpl.
  match goal with |- context [read_parts w 0 _ ?s0] =>
    destruct (read_parts_present_then_skipped w skip pres inds Hpres Hskip s0
                (getIndexPath w fn0) [] true eq_refl) as [H1 H2] end.
  simpl in H1, H2. split; [exact H1|]. rewrite H2. reflexivity.
Qed.

Lemma read_present_then_skipped_witness :
  fst (read demo_world (mkSt tail_handle [])) = Ok tt
  ∧ self (snd (read demo_world (mkSt tail_handle [])))
    = with_native tail_handle
        (mkMultiIndex "/data/idx1.fits" [mkIndex 3 10 4 70 30] true).
Proof.
  apply (read_present_then_skipped demo_world tail_handle [] "idx1.fits"
           ["part.fits"%string] [None; Some "gone.fits"%string]
           [mkIndex 3 10 4 70 30]); try reflexivity.
  - repeat constructor.
  - repeat constructor.
Defined.

(** *** Counting the attached parts *)

Lemma count_present_le w fns : (count_present w fns ≤ length fns)%nat.
Proof.
  induction fns as [|fn rest IH]; simpl; [done|].
  destruct (present w fn); lia.
Qed.

Lemma count_present_all w fns :
  count_present w fns = length fns → Forall (λ fn, present w fn = true) fns.
Proof.
  induction fns as [|fn rest IH]; simpl; [done|].
  pose proof (count_present_le w rest).
  destruct (present w fn) eqn:Hfn; intros Hc; [|lia].
  constructor; [done|]. apply IH. lia.
Qed.

(** A part loop that returns has attached one index per present entry. *)
Lemma read_parts_ok_count w fns : ∀ i s s' mi,
  _mi (self s) = Some mi →
  read_parts w i fns s = (Ok tt, s') →
  ∃ mi', _mi (self s') = Some mi'
         ∧ mi_name mi' = mi_name mi
         ∧ length (mi_inds mi') = (length (mi_inds mi) + count_present w fns)%nat.
Proof.
  induction fns as [|[f|] rest IH]; intros i s s' mi Hmi; simpl.
  - intros [= <-]. exists mi. split; [done|]. split; [done|lia].
  - destruct (path_exists w (getIndexPath w f)) eqn:Hex; simpl.
    + unfold bind at 1. unfold emit at 1. simpl.
      unfold bind at 1. unfold mi_addIndex, with_mi, bind, get_self, emit, set_mi. simpl.
      rewrite Hmi. simpl.
      destruct (index_file w (getIndexPath w f)) as [ind|]; simpl; [|done].
      unfold mi_getitem, with_mi, bind, get_self. simpl.
      destruct ((mi_inds mi ++ [ind]) !! i); simpl; [|done].
      intros Hrest. eapply IH in Hrest; [|reflexivity].
      destruct Hrest as (mi' & H1 & H2 & H3). exists mi'.
      split; [done|]. split; [done|].
      rewrite H3. simpl. rewrite length_app. simpl. lia.
    + unfold bind at 1. unfold emit at 1. simpl.
      intros Hrest. eapply IH in Hrest; [|exact Hmi]. simpl in Hrest.
      destruct Hrest as (mi' & H1 & H2 & H3). exists mi'. by rewrite H3.
  - unfold bind at 1. unfold emit at 1. simpl.
    intros Hrest. eapply IH in Hrest; [|exact Hmi].
    destruct Hrest as (mi' & H1 & H2 & H3). exists mi'. by rewrite H3.
Qed.

(** A [read] of an unread handle that returns: the primary file and the
    number of attached parts. *)
Lemma read_ok_count w s s' :
  _mi (self s) = None →
  read w s = (Ok tt, s') →
  ∃ fn0 parts mi,
    _filenameList (self s) = Some fn0 :: parts
    ∧ path_exists w (getIndexPath w fn0) = true
    ∧ _mi (self s') = Some mi
    ∧ mi_name mi = getIndexPath w fn0
    ∧ length (mi_inds mi) = count_present w parts.
Proof.
  intros Hmi. unfold read, bind, get_self. simpl. rewrite Hmi.
  destruct (_filenameList (self s)) as [|[fn0|] parts]; [done| |done].
  destruct (path_exists w (getIndexPath w fn0)) eqn:Hex; [|done]. simpl.
  unfold MultiIndex_new, bind, emit. simpl.
  destruct (star_file w _); [|done]. simpl.
  intros Hparts. eapply read_parts_ok_count in Hparts; [|reflexivity].
  destruct Hparts as (mi' & H1 & H2 & H3). by exists fn0, parts, mi'.
Qed.

(** [self[i]] on a loaded handle only looks the part up. *)
Lemma getitems_loaded w attr n : ∀ i s mi hps s',
  _loaded (self s) = true →
  _mi (self s) = Some mi →
  getitems w attr i n s = (Ok hps, s') →
  s' = s
  ∧ (i + n ≤ length (mi_inds mi) ∨ n = 0)%nat
  ∧ hps = map attr (take n (drop i (mi_inds mi))).
Proof.
  induction n as [|n IH]; intros i s mi hps s' Hl Hmi; simpl.
  - intros [= <- <-]. split; [done|]. split; [by right|]. done.
  - unfold bind at 1. unfold getitem, bind at 1.
    rewrite (reload_when_loaded w s Hl).
    unfold mi_getitem, with_mi, bind, get_self. simpl. rewrite Hmi.
    destruct (mi_inds mi !! i) as [ind|] eqn:Hi; simpl; [|done].
    destruct (getitems w attr (S i) n s) as [[rest|e] s1] eqn:Hrest; [|done].
    intros [= <- <-]. destruct (IH _ _ _ _ _ Hl Hmi Hrest) as (-> & Hle & ->).
    split; [done|]. apply lookup_lt_Some in Hi as Hlt.
    split; [left; lia|].
    rewrite (drop_S _ _ _ Hi). simpl. done.
Qed.

Lemma pop1_unique (X : gset Z) x : size X = 1%nat → x ∈ X → pop1 X = x.
Proof.
  intros [y Hy]%size_1_elem_of Hx. apply leibniz_equiv in Hy. subst X.
  apply elem_of_singleton in Hx as ->.
  unfold pop1. by rewrite elements_singleton.
Qed.

(** What [fromFilenameList] returns: the steps of [discover] on the new
    object. *)
Lemma fromFilenameList_ok_parts w fl o t :
  fromFilenameList w fl = (Ok o, t) →
  _filenameList o = fl
  ∧ _loaded o = true
  ∧ ∃ fn0 parts mi,
      fl = Some fn0 :: parts
      ∧ path_exists w (getIndexPath w fn0) = true
      ∧ Forall (λ fn, present w fn = true) parts
      ∧ _mi o = Some mi
      ∧ mi_name mi = getIndexPath w fn0
      ∧ length (mi_inds mi) = length parts
      ∧ Forall (λ ind, healpix ind = _healpix o ∧ hpnside ind = _nside o) (mi_inds mi).
Proof.
  unfold fromFilenameList.
  destruct (MultiIndexCache_init fl 0 0) as [o0|e] eqn:Hinit; [|done].
  pose proof (init_constructed _ _ _ _ Hinit) as Hc.
  apply init_unloaded in Hinit as (Hfl & _ & _ & Hmi0 & Hl0).
  destruct (discover w (mkSt o0 [])) as [[[]|e] s] eqn:Hd; [|done].
  intros [= <- <-]. revert Hd. unfold discover.
  unfold bind at 1.
  destruct (reload w (mkSt o0 [])) as [[[]|e] s1] eqn:Hreload; [|done].
  pose proof (reload_ok_loaded _ _ _ Hreload) as Hl1.
  pose proof (keeps_files_reload w (mkSt o0 [])) as Hfl1.
  rewrite Hreload in Hfl1. simpl in Hfl1.
  (* the reload was a read *)
  revert Hreload. unfold reload, bind at 1, get_self. simpl. rewrite Hl0, Hmi0.
  unfold bind at 1.
  destruct (read w (mkSt o0 [])) as [[[]|e] s0] eqn:Hread; [|done].
  unfold set_loaded. simpl. intros [= <-]. simpl in *.
  destruct (read_ok_count w (mkSt o0 []) s0 Hmi0 Hread)
    as (fn0 & parts & mi & Hparts & Hprim & Hmi & Hname & Hcount).
  simpl in Hparts.
  (* the lookups *)
  unfold bind at 1, get_self. simpl.
  set (s1 := mkSt _ (trace s0)).
  assert (_loaded (self s1) = true) as Hl by done.
  assert (_mi (self s1) = Some mi) as Hmi1 by done.
  assert (Z.to_nat (len (self s1)) = length parts) as Hn.
  { unfold len, s1. cbn [self _filenameList]. rewrite Hfl1, Hparts.
    change (length (Some fn0 :: parts)) with (S (length parts)). lia. }
  unfold s1 in Hn. cbn [self] in Hn. rewrite Hn. unfold bind at 1.
  destruct (getitems w healpix 0 (length parts) s1) as [[hps|e] s2] eqn:Hhp; [|done].
  destruct (getitems_loaded _ _ _ _ _ _ _ _ Hl Hmi1 Hhp) as (-> & Hle & ->).
  unfold bind at 1.
  destruct (getitems w hpnside 0 (length parts) s1) as [[nss|e] s3] eqn:Hns; [|done].
  destruct (getitems_loaded _ _ _ _ _ _ _ _ Hl Hmi1 Hns) as (-> & _ & ->).
  assert (length (mi_inds mi) = length parts) as Hlen.
  { pose proof (count_present_le w parts). unfold constructed in Hc.
    rewrite Hparts in Hc. simpl in Hc. unfold Filename in *. lia. }
  rewrite drop_0, <- Hlen, !firstn_all.
  destruct (negb (size _ =? 1)%nat) eqn:Hs1; [done|].
  destruct (negb (size (list_to_set (map hpnside (mi_inds mi)) : gset Z) =? 1)%nat) eqn:Hs2;
    [done|].
  apply negb_false_iff, Nat.eqb_eq in Hs1, Hs2.
  unfold set_healpix_nside. intros [= <-]. simpl.
  split; [by rewrite Hfl1|]. split; [done|].
  exists fn0, parts, mi. split; [by rewrite <- Hfl, Hparts|]. split; [done|].
  split; [apply count_present_all; unfold Filename in *; lia|].
  split; [done|]. split; [done|]. split; [done|].
  apply Forall_forall. intros ind Hind. split; symmetry; apply pop1_unique; try done.
  - apply elem_of_list_to_set. by apply (list_elem_of_fmap_2 healpix).
  - apply elem_of_list_to_set. by apply (list_elem_of_fmap_2 hpnside).
Qed.

(** X7. What [fromFilenameList] returns.  It returns a handle only when the
    primary file and every declared part are non-null and on disk; the handle
    is then loaded, holds
    the list it was given, has exactly the declared parts attached, and its
    healpix and nside are those of every attached part. *)
Theorem fromFilenameList_discovers w fl o t :
  fromFilenameList w fl = (Ok o, t) →
  _filenameList o = fl
  ∧ _loaded o = true
  ∧ ∃ fn0 parts mi,
      fl = Some fn0 :: parts
      ∧ path_exists w (getIndexPath w fn0) = true
      ∧ Forall (λ fn, present w fn = true) parts
      ∧ _mi o = Some mi
      ∧ mi_name mi = getIndexPath w fn0
      ∧ length (mi_inds mi) = length parts
      ∧ Forall (λ ind, healpix ind = _healpix o ∧ hpnside ind = _nside o) (mi_inds mi).
Proof. apply fromFilenameList_ok_parts. Qed.

Lemma fromFilenameList_discovers_witness :
  ∃ o t,
    fromFilenameList demo_world [Some "idx1.fits"; Some "idx1.fits"]%string = (Ok o, t)
    ∧ _filenameList o = [Some "idx1.fits"; Some "idx1.fits"]%string
    ∧ _loaded o = true.
Proof.
  destruct (fromFilenameList demo_world [Some "idx1.fits"; Some "idx1.fits"]%string)
    as [[o|e] t] eqn:Hfrom; [|vm_compute in Hfrom; discriminate].
  exists o, t. split; [reflexivity|].
  destruct (fromFilenameList_discovers _ _ _ _ Hfrom) as (Hfl & Hl & _).
  by split.
Defined.

(** ** Reading a cache file: the join *)

Lemma empty_lists_lookup_None ids z : z ∉ ids → empty_lists ids !! z = None.
Proof.
  unfold empty_lists.
  assert (∀ (m : gmap Z (list string)),
            z ∉ ids → m !! z = None →
            foldl (λ m i, <[i := []]> m) m ids !! z = None) as Hgen.
  { induction ids as [|i ids IH]; intros m Hz Hm; simpl; [done|].
    apply not_elem_of_cons in Hz as [Hne Hz].
    apply IH; [done|]. by rewrite lookup_insert_ne. }
  intros Hz. by apply Hgen.
Qed.

(** The join appends to each list the filenames of the rows of its id, in
    table order, and fails with KeyError at the first row of an unknown id. *)
Lemma join_filenames_spec rows : ∀ (m : gmap Z (list string)),
  (Forall (λ r, is_Some (m !! frow_id r)) rows →
   ∃ m', join_filenames m (zip (map frow_id rows) (field_filename rows)) = Ok m'
         ∧ ∀ k, m' !! k = (λ l, l ++ rows_of_id k rows) <$> m !! k)
  ∧ (¬ Forall (λ r, is_Some (m !! frow_id r)) rows →
     join_filenames m (zip (map frow_id rows) (field_filename rows)) = Raise KeyError).
Proof.
  induction rows as [|r rows IH]; intros m.
  - split.
    + intros _. exists m. split; [done|]. intros k. unfold rows_of_id. simpl.
      destruct (m !! k); simpl; [by rewrite app_nil_r | done].
    + intros Hn. destruct Hn. constructor.
  - simpl. destruct (m !! frow_id r) as [l|] eqn:Hr.
    + destruct (IH (<[frow_id r := l ++ [rstrip (frow_filename r)]]> m)) as [IHok IHno].
      assert (∀ r', is_Some (<[frow_id r := l ++ [rstrip (frow_filename r)]]> m !! frow_id r')
                    ↔ is_Some (m !! frow_id r')) as Hdom.
      { intros r'. destruct (decide (frow_id r = frow_id r')) as [Heq|Hne].
        - rewrite <- Heq, lookup_insert_eq, Hr. split; eauto.
        - by rewrite lookup_insert_ne. }
      split.
      * intros Hall. inversion Hall as [|? ? _ Hrest]; subst.
        destruct IHok as (m' & Hjoin & Hm').
        { eapply Forall_impl; [exact Hrest|]. intros r'. apply Hdom. }
        exists m'. split; [exact Hjoin|]. intros k. rewrite Hm'.
        unfold rows_of_id. simpl.
        destruct (decide (frow_id r = k)) as [<-|Hne].
        -- rewrite lookup_insert_eq, Hr, bool_decide_eq_true_2 by done. simpl.
           by rewrite <- app_assoc.
        -- rewrite lookup_insert_ne, bool_decide_eq_false_2 by done. done.
      * intros Hn. apply IHno. intros Hrest. apply Hn.
        constructor; [by rewrite Hr|].
        eapply Forall_impl; [exact Hrest|]. intros r'. apply Hdom.
    + split; [|done]. intros Hall. inversion Hall as [|? ? [? Hc] _]; subst. congruence.
Qed.

Lemma rmap_total {A B} (f : A → result B) xs :
  Forall (λ x, is_ok (f x) = true) xs → ∃ ys, rmap f xs = Ok ys.
Proof.
  induction 1 as [|x xs Hx _ [ys IH]]; simpl; [by exists []|].
  destruct (f x) as [y|e]; [|done]. simpl. rewrite IH. simpl. eauto.
Qed.

Lemma rmap_raise {A B} (f : A → result B) E xs :
  (∀ x, is_ok (f x) = true ∨ f x = Raise E) →
  ¬ Forall (λ x, is_ok (f x) = true) xs → rmap f xs = Raise E.
Proof.
  intros Hf. induction xs as [|x xs IH]; intros Hn; simpl.
  - destruct Hn. constructor.
  - destruct (Hf x) as [Hx| ->]; [|done].
    destruct (f x) as [y|e] eqn:Hfx; [|done]. simpl.
    rewrite IH; [done|]. intros Hall. apply Hn. constructor; [by rewrite Hfx|done].
Qed.

Lemma known_ids_lookup hdus r :
  is_Some (empty_lists (handle_ids hdus) !! frow_id r) ↔ frow_id r ∈ handle_ids hdus.
Proof.
  destruct (decide (frow_id r ∈ handle_ids hdus)) as [Hin|Hout].
  - rewrite (empty_lists_lookup _ _ Hin). split; eauto.
  - rewrite (empty_lists_lookup_None _ _ Hout). split; [by intros [? ?]|done].
Qed.

(** The handles of a cache file, row by row. *)
Lemma cache_handles_rows hdus inds :
  cache_handles hdus = Ok inds →
  Forall (λ fr, frow_id fr ∈ handle_ids hdus) (second hdus)
  ∧ Forall2 (λ r o, MultiIndexCache_init (map Some (rows_of_id (row_id r) (second hdus)))
                       (row_healpix r) (row_nside r) = Ok o)
      (first hdus) inds.
Proof.
  unfold cache_handles. fold (handle_ids hdus).
  destruct (join_filenames_spec (second hdus) (empty_lists (handle_ids hdus))) as [Hok Hno].
  destruct (decide (Forall (λ r, is_Some (empty_lists (handle_ids hdus) !! frow_id r))
                      (second hdus))) as [Hall|Hnall].
  - destruct (Hok Hall) as (m' & -> & Hm'). simpl.
    intros Hrmap%rmap_ok. split.
    + eapply Forall_impl; [exact Hall|]. intros r. apply known_ids_lookup.
    + eapply Forall2_impl; [exact Hrmap|]. simpl.
      intros r o. rewrite Hm'.
      destruct (empty_lists (handle_ids hdus) !! row_id r) as [l|] eqn:Hl; simpl; [|done].
      assert (row_id r ∈ handle_ids hdus) as Hin.
      { destruct (decide (row_id r ∈ handle_ids hdus)) as [?|Hout]; [done|].
        by rewrite (empty_lists_lookup_None _ _ Hout) in Hl. }
      rewrite (empty_lists_lookup _ _ Hin) in Hl. by injection Hl as <-.
  - rewrite (Hno Hnall). done.
Qed.

(** X8. The join of [_initFromCache]: the handles come one per row of the
    handle table, in table order; each has the healpix and nside of its row
    and, as filename list, the filenames of the rows of the filename table
    with the same id, in table order; none is read or loaded. *)
Theorem cache_handles_join hdus inds :
  cache_handles hdus = Ok inds →
  length inds = length (first hdus)
  ∧ ∀ i r, first hdus !! i = Some r →
      ∃ o, inds !! i = Some o
           ∧ _filenameList o = map Some (rows_of_id (row_id r) (second hdus))
           ∧ _healpix o = row_healpix r
           ∧ _nside o = row_nside r
           ∧ _mi o = None
           ∧ _loaded o = false.
Proof.
  intros [_ Hrows]%cache_handles_rows.
  split; [symmetry; by eapply Forall2_length|].
  intros i r Hi.
  destruct (Forall2_lookup_l _ _ _ _ _ Hrows Hi) as (o & Ho & Hinit).
  exists o. split; [exact Ho|].
  by apply init_unloaded in Hinit as (? & ? & ? & ? & ?).
Qed.

Lemma cache_handles_join_witness :
  ∃ hdus inds,
    fits_file cached_world "/data/andCache.fits" = Some hdus
    ∧ cache_handles hdus = Ok inds
    ∧ length inds = 2%nat
    ∧ map _filenameList inds
      = [[Some "idx1.fits"; Some "idx1.fits"]; [Some "idx2.fits"; Some "idx2.fits"]]%string.
Proof.
  destruct (fits_file cached_world "/data/andCache.fits") as [hdus|] eqn:Hf;
    [|vm_compute in Hf; discriminate].
  destruct (cache_handles hdus) as [inds|e] eqn:Hh;
    [|vm_compute in Hf; injection Hf as <-; vm_compute in Hh; discriminate].
  exists hdus, inds. split; [reflexivity|]. split; [exact Hh|].
  destruct (cache_handles_join hdus inds Hh) as [Hlen _].
  vm_compute in Hf. injection Hf as <-.
  split; [exact Hlen|].
  vm_compute in Hh. by injection Hh as <-.
Defined.

(** X9. Which cache files can be read.  The two tables join into handles
    exactly when every row of the filename table has the id of some handle
    row and every handle row has at least two filename rows; a row of an
    unknown id gives KeyError, and otherwise a handle row with fewer than two
    filenames gives the constructor's RuntimeError. *)
Theorem cache_handles_well_formed hdus :
  let known := Forall (λ fr, frow_id fr ∈ handle_ids hdus) (second hdus) in
  let enough := Forall (λ r, (2 ≤ length (rows_of_id (row_id r) (second hdus)))%nat)
                  (first hdus) in
  (is_ok (cache_handles hdus) = true ↔ known ∧ enough)
  ∧ (¬ known → cache_handles hdus = Raise KeyError)
  ∧ (known → ¬ enough →
     cache_handles hdus
     = Raise (RuntimeError "Insufficient filenames provided for multiindex")).
Proof.
  intros known enough.
  assert (¬ known → cache_handles hdus = Raise KeyError) as Hunknown.
  { intros Hn. unfold cache_handles. fold (handle_ids hdus).
    destruct (join_filenames_spec (second hdus) (empty_lists (handle_ids hdus))) as [_ Hno].
    rewrite Hno; [done|]. intros Hall. apply Hn.
    eapply Forall_impl; [exact Hall|]. intros r. apply known_ids_lookup. }
  assert (known →
          cache_handles hdus
          = rmap (λ r, MultiIndexCache_init (map Some (rows_of_id (row_id r) (second hdus)))
                         (row_healpix r) (row_nside r)) (first hdus)) as Hknown.
  { intros Hk. unfold cache_handles. fold (handle_ids hdus).
    destruct (join_filenames_spec (second hdus) (empty_lists (handle_ids hdus))) as [Hok _].
    destruct Hok as (m' & -> & Hm').
    { eapply Forall_impl; [exact Hk|]. intros r. apply known_ids_lookup. }
    simpl. clear Hk. unfold handle_ids in Hm'.
    assert (∀ r, r ∈ first hdus →
                 m' !! row_id r = Some (rows_of_id (row_id r) (second hdus))) as Hrow.
    { intros r Hr. rewrite Hm', empty_lists_lookup; [done|].
      by apply (list_elem_of_fmap_2 row_id). }
    clear Hm'. induction (first hdus) as [|r rows IH]; simpl; [done|].
    rewrite Hrow by (by left). rewrite IH; [done|].
    intros r' Hr'. apply Hrow. by right. }
  assert (∀ r, is_ok (MultiIndexCache_init (map Some (rows_of_id (row_id r) (second hdus)))
                        (row_healpix r) (row_nside r)) = true
               ↔ (2 ≤ length (rows_of_id (row_id r) (second hdus)))%nat) as Hinit.
  { intros r. unfold MultiIndexCache_init. rewrite length_map.
    destruct (_ <? 2)%nat eqn:Hlt; simpl.
    - apply Nat.ltb_lt in Hlt. split; [done|lia].
    - apply Nat.ltb_ge in Hlt. split; [done|]. done. }
  split; [|split; [exact Hunknown|]].
  - split.
    + intros Hok. destruct (decide known) as [Hk|Hnk].
      * split; [exact Hk|]. rewrite (Hknown Hk) in Hok.
        destruct (rmap _ (first hdus)) as [inds|e] eqn:Hr; [|done].
        apply rmap_ok in Hr. apply Forall_forall. intros r Hr'.
        apply list_elem_of_lookup in Hr' as [i Hi].
        destruct (Forall2_lookup_l _ _ _ _ _ Hr Hi) as (o & _ & Ho).
        apply Hinit. by rewrite Ho.
      * by rewrite (Hunknown Hnk) in Hok.
    + intros [Hk He]. rewrite (Hknown Hk).
      destruct (rmap_total (λ r, MultiIndexCache_init
                              (map Some (rows_of_id (row_id r) (second hdus)))
                              (row_healpix r) (row_nside r)) (first hdus)) as [inds ->];
        [|done].
      eapply Forall_impl; [exact He|]. intros r. apply Hinit.
  - intros Hk Hne. rewrite (Hknown Hk). apply rmap_raise.
    + intros r. unfold MultiIndexCache_init. destruct (_ <? 2)%nat; [by right|by left].
    + intros Hall. apply Hne. eapply Forall_impl; [exact Hall|]. intros r. apply Hinit.
Qed.

Lemma cache_handles_well_formed_witness :
  cache_handles orphan_cache = Raise KeyError
  ∧ cache_handles short_cache
    = Raise (RuntimeError "Insufficient filenames provided for multiindex").
Proof.
  split.
  - apply (proj1 (proj2 (cache_handles_well_formed orphan_cache))).
    assert (bool_decide (Forall (λ fr, frow_id fr ∈ handle_ids orphan_cache)
                           (second orphan_cache)) = false) as Hn
      by (vm_compute; reflexivity).
    by apply bool_decide_eq_false_1 in Hn.
  - apply (proj2 (proj2 (cache_handles_well_formed short_cache))).
    + repeat constructor.
    + assert (bool_decide (Forall (λ r, (2 ≤ length (rows_of_id (row_id r)
                                                        (second short_cache)))%nat)
                             (first short_cache)) = false) as Hn
        by (vm_compute; reflexivity).
      by apply bool_decide_eq_false_1 in Hn.
Defined.

(** ** Every registry is consistent with its configuration *)

Lemma rows_of_id_elem k rows fn :
  fn ∈ rows_of_id k rows ↔ ∃ r, r ∈ rows ∧ frow_id r = k ∧ fn = rstrip (frow_filename r).
Proof.
  unfold rows_of_id. rewrite list_elem_of_omap. split.
  - intros (r & Hr & Hfn). exists r. split; [done|].
    destruct (bool_decide _) eqn:Hk; [|done].
    apply bool_decide_eq_true_1 in Hk. by injection Hfn as <-.
  - intros (r & Hr & Hk & ->). exists r. split; [done|].
    by rewrite bool_decide_eq_true_2.
Qed.

(** The handles of a cache file hold, between them, the filenames of the
    filename table. *)
Lemma cache_handles_files hdus inds :
  cache_handles hdus = Ok inds →
  list_to_set (all_filenames inds) = cacheFiles hdus.
Proof.
  intros Hh. pose proof (cache_handles_rows hdus inds Hh) as [Hknown Hrows].
  unfold cacheFiles, all_filenames, field_filename. apply set_eq. intros fn.
  rewrite !elem_of_list_to_set, elem_of_concat. split.
  - intros (l & Hl & Hfn).
    apply list_elem_of_fmap in Hl as (o & -> & Ho).
    apply list_elem_of_lookup in Ho as [i Ho].
    destruct (Forall2_lookup_r _ _ _ _ _ Hrows Ho) as (r & _ & Hinit).
    apply init_unloaded in Hinit as (Hfl & _). rewrite Hfl in Hfn.
    apply list_elem_of_fmap in Hfn as (s & -> & Hs).
    apply rows_of_id_elem in Hs as (fr & Hfr & _ & ->).
    apply (list_elem_of_fmap_2 Some).
    by apply (list_elem_of_fmap_2 (λ r0, rstrip (frow_filename r0))).
  - intros (s & -> & Hs)%list_elem_of_fmap.
    apply list_elem_of_fmap in Hs as (fr & -> & Hfr).
    eapply Forall_forall in Hknown; [|exact Hfr].
    apply list_elem_of_fmap in Hknown as (r & Hid & Hr).
    apply list_elem_of_lookup in Hr as [i Hr].
    destruct (Forall2_lookup_l _ _ _ _ _ Hrows Hr) as (o & Ho & Hinit).
    apply init_unloaded in Hinit as (Hfl & _).
    exists (_filenameList o). split.
    + apply (list_elem_of_fmap_2 _filenameList). by eapply list_elem_of_lookup_2.
    + rewrite Hfl. apply (list_elem_of_fmap_2 Some). apply rows_of_id_elem.
      exists fr. by rewrite Hid.
Qed.

(** X10. The registry invariant: every registry the constructor returns,
    from the index files or from the cache, holds handles of at least two
    filenames each, none loaded without its native structure, whose filenames
    form exactly the set its configuration declares. *)
Theorem init_registry_invariant w andConfig cat t :
  AstrometryNetCatalog_init w andConfig = (Ok cat, t) →
  config cat = andConfig
  ∧ consistent cat
  ∧ Forall constructed (_multiInds cat)
  ∧ Forall loaded_has_mi (_multiInds cat).
Proof.
  intros Hinit. destruct (init_handles_ok _ _ _ _ Hinit) as (Hcfg & Hinv & Hcons).
  split; [exact Hcfg|]. split; [|by split].
  revert Hinit. unfold AstrometryNetCatalog_init.
  destruct (allowCache andConfig && path_exists w _).
  - unfold _initFromCache.
    destruct (fits_file w _) as [hdus|]; [|done].
    destruct (cache_handles hdus) as [inds|e] eqn:Hh; simpl; [|done].
    destruct (bool_decide _) eqn:Hset; [|done].
    intros [= <- <-]. unfold consistent. simpl.
    rewrite (cache_handles_files _ _ Hh). by apply bool_decide_eq_true_1 in Hset.
  - destruct (_initFromIndexFiles w andConfig) as [[inds|e] t'] eqn:Hfiles; [|done].
    intros [= <- <-]. apply (initFromIndexFiles_consistent w). by rewrite Hfiles.
Qed.

Lemma init_registry_invariant_witness :
  ∃ cat t,
    AstrometryNetCatalog_init cached_world regrouped_config = (Ok cat, t)
    ∧ consistent cat
    ∧ Forall constructed (_multiInds cat).
Proof.
  destruct (AstrometryNetCatalog_init cached_world regrouped_config) as [[cat|e] t] eqn:Hinit;
    [|vm_compute in Hinit; discriminate].
  exists cat, t. split; [reflexivity|].
  destruct (init_registry_invariant _ _ _ _ Hinit) as (_ & Hc & Hcons & _).
  by split.
Defined.

(** ** The cache file that writeCache writes *)

Lemma some_names (fns : list Filename) :
  Forall is_Some fns → fns = map Some (omap id fns).
Proof.
  induction 1 as [|fn fns [s ->] _ IH]; [done|]. simpl. f_equal. exact IH.
Qed.

Lemma all_filenames_some inds :
  Forall is_Some (all_filenames inds) →
  Forall (λ o, _filenameList o = map Some (names o)) inds.
Proof.
  unfold all_filenames. induction inds as [|o rest IH]; simpl; [done|].
  intros [Ho Hrest]%Forall_app. constructor; [by apply some_names | by apply IH].
Qed.



(** A [writeCache] that returns wrote these two tables. *)
Lemma writeCache_written w cat w' :
  writeCache w cat = Ok w' →
  ∃ longest,
    py_max (map String.length (concat (map names (_multiInds cat)))) = Ok longest
    ∧ Forall (λ o, _filenameList o = map Some (names o)) (_multiInds cat)
    ∧ writeto w (getIndexPath w _cacheFilename)
        (mkCacheFile (handle_rows 0 (_multiInds cat)) (longest + 1)
           (all_rows 0 (_multiInds cat))) = Ok w'.
Proof.
  intros Hw. destruct (writeCache_ok_lengths _ _ _ Hw) as (lens & longest0 & Hlens & _).
  apply py_len_ok in Hlens as [Hsome _].
  pose proof (all_filenames_some _ Hsome) as Hnames.
  destruct cat as [cfg inds]. simpl in *. revert Hw.
  unfold writeCache. simpl.
  rewrite (all_filenames_names inds Hnames), py_len_names. cbn [rbind].
  destruct (py_max (map String.length (concat (map names inds)))) as [longest|e] eqn:Hmax;
    [|done].
  cbn [rbind]. exists longest. split; [done|]. split; [done|].
  revert Hw.
  pose proof (imap_handle_rows inds 0) as Himap. simpl in Himap. rewrite Himap.
  apply py_max_bound in Hmax.
  assert (Forall (λ o, _filenameList o = map Some (names o)
                       ∧ Forall (λ s, (String.length s ≤ longest + 1)%nat) (names o)) inds)
    as Hfit.
  { apply Forall_forall. intros o Ho. split.
    - by eapply Forall_forall in Hnames.
    - apply Forall_forall. intros s Hs.
      eapply Forall_forall in Hmax.
      + etrans; [exact Hmax|]. lia.
      + apply (list_elem_of_fmap_2 String.length). apply elem_of_concat.
        exists (names o). split; [|done]. by apply (list_elem_of_fmap_2 names). }
  pose proof (fill_second_ok (longest + 1) inds 0 [] (numFilenames inds) Hfit
                ltac:(lia)) as Hfill.
  simpl in Hfill. unfold numFilenames in Hfill. rewrite Hfill. cbn [rbind].
  by rewrite Nat.sub_diag, app_nil_r.
Qed.

Lemma handle_rows_columns inds : ∀ j,
  map row_id (handle_rows j inds) = map Z.of_nat (seq j (length inds))
  ∧ map row_healpix (handle_rows j inds) = map (λ o, wrap64 (_healpix o)) inds
  ∧ map row_nside (handle_rows j inds) = map (λ o, wrap64 (_nside o)) inds.
Proof.
  induction inds as [|o rest IH]; intros j; simpl; [done|].
  destruct (IH (S j)) as (-> & -> & ->). done.
Qed.





(** ** generateCache, end to end *)

(** A [reload] loop over loaded handles changes nothing. *)
Lemma for_each_reload_loaded w inds : ∀ t,
  Forall (λ o, _loaded o = true) inds →
  for_each (reload w) inds t = (Ok tt, (inds, t)).
Proof.
  induction inds as [|o rest IH]; intros t Hall; simpl; [done|].
  inversion Hall as [|? ? Ho Hrest]; subst.
  rewrite (reload_when_loaded w (mkSt o t) Ho). simpl.
  by rewrite (IH t Hrest).
Qed.

Lemma fromFilenameLists_loaded w lists inds :
  Forall2 (λ fl o, fst (fromFilenameList w fl) = Ok o) lists inds →
  Forall (λ o, _loaded o = true) inds.
Proof.
  induction 1 as [|fl o ls os Ho _ IH]; constructor; [|done].
  destruct (fromFilenameList w fl) as [r t] eqn:Hfrom. simpl in Ho. subst r.
  by apply fromFilenameList_ok_parts in Hfrom as (_ & ? & _).
Qed.

(** X12. The cache stands for the index files.  With the cache allowed and
    not yet written, if the registry can be built from the index files, holds
    a handle, and its handles fit the cache tables, then [generateCache]
    returns, and constructing the registry again takes the cache: no file is
    read, and the handles come out unloaded with the filename lists, healpix
    and nside that reading the index files gave. *)
Theorem cache_stands_for_index_files w andConfig cat t :
  allowCache andConfig = true →
  path_exists w (getIndexPath w _cacheFilename) = false →
  can_write w (getIndexPath w _cacheFilename) = true →
  AstrometryNetCatalog_init w andConfig = (Ok cat, t) →
  _multiInds cat ≠ [] →
  Forall storable_handle (_multiInds cat) →
  ended (generateCache w (Some andConfig)) = Ok tt
  ∧ AstrometryNetCatalog_init (world (generateCache w (Some andConfig))) andConfig
    = (Ok (mkCatalog andConfig (map unloaded_copy (_multiInds cat))), []).
Proof.
  intros Hallow Hnew Hcw Hinit Hne Hstor.
  destruct (init_handles_ok _ _ _ _ Hinit) as (Hcfg & Hinv & Hcons).
  (* the registry came from the index files *)
  assert (fst (_initFromIndexFiles w andConfig) = Ok (_multiInds cat)) as Hfiles.
  { revert Hinit. unfold AstrometryNetCatalog_init. rewrite Hnew, andb_false_r.
    destruct (_initFromIndexFiles w andConfig) as [[inds|e] t']; [|done].
    by intros [= <- _]. }
  pose proof (initFromIndexFiles_consistent w andConfig _ Hfiles) as Hconsistent.
  assert (Forall (λ o, _loaded o = true) (_multiInds cat)) as Hloaded.
  { eapply fromFilenameLists_loaded. by apply fromFilenameLists_ok. }
  (* the try block *)
  destruct (writeCache_ok w (mkCatalog (config cat) (_multiInds cat)) Hne Hcons Hstor Hcw)
    as [width Hwrite].
  unfold writeto in Hwrite. rewrite Hcw in Hwrite. simpl in Hwrite.
  match type of Hwrite with _ = Ok ?w0 => set (w' := w0) in * end.
  assert (generate_try w cat t = (Ok tt, (_multiInds cat, t), w')) as Htry.
  { unfold generate_try. rewrite (for_each_reload_loaded w _ t Hloaded). by rewrite Hwrite. }
  (* the finally block *)
  destruct (for_each_unload (_multiInds cat) t Hinv) as (Hunl & _ & _).
  unfold generateCache. rewrite Hinit, Htry. unfold generate_finally.
  destruct (for_each unload (_multiInds cat) t) as [[[]|e] [inds' t2]]; [|done].
  simpl. split; [done|].
  (* the second construction *)
  assert (getIndexPath w' _cacheFilename = getIndexPath w _cacheFilename) as Hpath by done.
  unfold AstrometryNetCatalog_init. rewrite Hallow, Hpath.
  assert (path_exists w' (getIndexPath w _cacheFilename) = true) as Hex.
  { unfold w'. simpl. by rewrite bool_decide_eq_true_2. }
  rewrite Hex. simpl.
  unfold _initFromCache.
  assert (fits_file w' (getIndexPath w _cacheFilename)
          = Some (mkCacheFile (handle_rows 0 (_multiInds cat)) width
                    (all_rows 0 (_multiInds cat)))) as Hf.
  { unfold w'. simpl. by rewrite bool_decide_eq_true_2. }
  rewrite Hf. rewrite (cache_handles_written _ width Hcons Hstor). simpl.
  rewrite (cacheFiles_written _ width Hstor).
  unfold consistent in Hconsistent. simpl in Hconsistent.
  rewrite bool_decide_eq_true_2 by done. done.
Qed.

Lemma cache_stands_for_index_files_witness :
  ended (generateCache demo_world (Some demo_config)) = Ok tt
  ∧ AstrometryNetCatalog_init cached_world demo_config = (Ok demo_catalog, []).
Proof.
  destruct (AstrometryNetCatalog_init demo_world demo_config) as [[cat|e] t] eqn:Hinit;
    [|vm_compute in Hinit; discriminate].
  assert (map unloaded_copy (_multiInds cat) = _multiInds demo_catalog) as Hcopy.
  { vm_compute in Hinit. by injection Hinit as <- _. }
  assert (_multiInds cat ≠ []) as Hne.
  { vm_compute in Hinit. by injection Hinit as <- _. }
  assert (Forall storable_handle (_multiInds cat)) as Hstor.
  { vm_compute in Hinit. injection Hinit as <- _.
    repeat constructor; vm_compute; congruence. }
  destruct (cache_stands_for_index_files demo_world demo_config cat t
              eq_refl eq_refl eq_refl Hinit Hne Hstor) as [Hend Hagain].
  split; [exact Hend|]. unfold cached_world. rewrite Hagain, Hcopy. reflexivity.
Defined.

(** X13. [generateCache] and the file system: unless it returns normally,
    it leaves the file system as it was; when it returns normally, the cache
    path holds a cache file with one handle row for every handle of the
    registry. *)
Theorem generateCache_file_system w andConfig :
  (ended (generateCache w andConfig) ≠ Ok tt → world (generateCache w andConfig) = w)
  ∧ (ended (generateCache w andConfig) = Ok tt →
     ∃ inds hdus,
       handles (generateCache w andConfig) = Some inds
       ∧ path_exists (world (generateCache w andConfig)) (getIndexPath w _cacheFilename)
         = true
       ∧ fits_file (world (generateCache w andConfig)) (getIndexPath w _cacheFilename)
         = Some hdus
       ∧ length (first hdus) = length inds).
Proof.
  unfold generateCache.
  destruct (match andConfig with Some c => Ok c | None => getConfigFromEnvironment w end)
    as [cfg|e]; [|by split].
  destruct (AstrometryNetCatalog_init w cfg) as [[cat|e] t] eqn:Hinit; [|by split].
  destruct (init_handles_ok _ _ _ _ Hinit) as (_ & Hinv & _).
  destruct (generate_try_handles w cat t Hinv) as [Hinv1 Hfiles1].
  destruct (generate_try w cat t) as [[r [inds t1]] w1] eqn:Htry. simpl in Hinv1, Hfiles1.
  destruct (for_each_unload inds t1 Hinv1) as (Hok & _ & _).
  pose proof (for_each_keeps_files unload inds t1 keeps_files_unload) as Hfiles2.
  unfold generate_finally.
  destruct (for_each unload inds t1) as [[[]|e] [inds' t2]]; [|done]. simpl in *.
  split.
  - intros Hr. revert Htry. unfold generate_try.
    destruct (for_each (reload w) (_multiInds cat) t) as [[[]|e] [inds0 t0]].
    + destruct (writeCache w _) as [w0|e]; [|by intros [= _ _ _ <-]].
      intros [= <- _ _ _]. done.
    + by intros [= _ _ _ <-].
  - intros ->. apply generate_try_ok in Htry as [_ Hw].
    apply writeCache_written in Hw as (longest & _ & _ & Hto). simpl in Hto.
    unfold writeto in Hto. destruct (can_write w _); [|done]. injection Hto as <-.
    exists inds'. eexists. simpl. rewrite !bool_decide_eq_true_2 by done.
    split; [done|]. split; [done|]. split; [done|]. simpl.
    destruct (handle_rows_columns inds 0) as (Hids & _).
    rewrite <- (length_map row_id), Hids, length_map, length_seq.
    rewrite <- (length_map _filenameList inds), <- Hfiles2. by rewrite length_map.
Qed.

Lemma generateCache_file_system_witness :
  world (generateCache readonly_world (Some demo_config)) = readonly_world
  ∧ ∃ inds hdus,
      handles (generateCache demo_world (Some demo_config)) = Some inds
      ∧ fits_file cached_world "/data/andCache.fits" = Some hdus
      ∧ length (first hdus) = length inds.
Proof.
  split.
  - apply (proj1 (generateCache_file_system readonly_world (Some demo_config))).
    vm_compute. discriminate.
  - destruct (proj2 (generateCache_file_system demo_world (Some demo_config)))
      as (inds & hdus & Hh & _ & Hf & Hlen); [vm_compute; reflexivity|].
    exists inds, hdus. split; [exact Hh|]. split; [exact Hf|exact Hlen].
Defined.

(** ** How many parts a handle holds *)

Lemma pres_bounded_bind {A B} (m : M A) (k : A → M B) :
  pres_bounded m → (∀ a, pres_bounded (k a)) → pres_bounded (bind m k).
Proof.
  intros Hm Hk s Hb. unfold bind. specialize (Hm s Hb).
  destruct (m s) as [[a|e] s1]; simpl in *; [|done].
  by apply Hk.
Qed.

Lemma pres_bounded_same {A} (m : M A) :
  (∀ s, _filenameList (self (snd (m s))) = _filenameList (self s)
        ∧ ∀ mi', _mi (self (snd (m s))) = Some mi' →
            ∃ mi, _mi (self s) = Some mi ∧ mi_inds mi' = mi_inds mi) →
  pres_bounded m.
Proof.
  intros Hsame s Hb mi' Hmi'. destruct (Hsame s) as [Hfl Hmi].
  destruct (Hmi mi' Hmi') as (mi & Hmi0 & ->). rewrite Hfl. by apply Hb.
Qed.

(** The part loop attaches at most one index per entry. *)
Lemma read_parts_bound w fns : ∀ i s mi mi',
  _mi (self s) = Some mi →
  _mi (self (snd (read_parts w i fns s))) = Some mi' →
  (length (mi_inds mi') ≤ length (mi_inds mi) + length fns)%nat.
Proof.
  induction fns as [|[f|] rest IH]; intros i s mi mi' Hmi; simpl.
  - rewrite Hmi. intros [= <-]. lia.
  - destruct (path_exists w (getIndexPath w f)); simpl.
    + unfold bind at 1. unfold emit at 1. simpl.
      unfold bind at 1. unfold mi_addIndex, with_mi, bind, get_self, emit, set_mi. simpl.
      rewrite Hmi. simpl.
      destruct (index_file w (getIndexPath w f)) as [ind|]; simpl.
      * unfold mi_getitem, with_mi, bind, get_self. simpl.
        destruct ((mi_inds mi ++ [ind]) !! i); simpl.
        -- intros Hrest. eapply IH in Hrest; [|reflexivity]. simpl in Hrest.
           rewrite length_app in Hrest. simpl in Hrest. lia.
        -- intros [= <-]. simpl. rewrite length_app. simpl. lia.
      * rewrite Hmi. intros [= <-]. lia.
    + unfold bind at 1. unfold emit at 1. simpl.
      intros Hrest. eapply IH in Hrest; [|exact Hmi]. lia.
  - unfold bind at 1. unfold emit at 1. simpl.
    intros Hrest. eapply IH in Hrest; [|exact Hmi]. lia.
Qed.

Lemma pres_bounded_read w : pres_bounded (read w).
Proof.
  intros s Hb. pose proof (keeps_read w s) as (Hfl & _).
  unfold read, bind, get_self in *. simpl in *.
  destruct (_mi (self s)) eqn:Hmi; [exact Hb|].
  destruct (_filenameList (self s)) as [|[fn0|] parts] eqn:Hparts;
    try (intros mi'; simpl; rewrite Hmi; done).
  destruct (negb _); [intros mi'; simpl; rewrite Hmi; done|].
  unfold MultiIndex_new, bind, emit in *. simpl in *.
  destruct (star_file w _); simpl in *; [|intros mi'; simpl; rewrite Hmi; done].
  intros mi' Hmi'. rewrite Hfl.
  eapply read_parts_bound in Hmi'; [|reflexivity]. simpl in *. lia.
Qed.

Lemma pres_bounded_mi_reload w : pres_bounded (mi_reload w).
Proof.
  apply pres_bounded_same. intros s.
  unfold mi_reload, with_mi, bind, get_self, emit, set_mi. simpl.
  destruct (_mi (self s)) as [mi|] eqn:Hmi; simpl; [|by rewrite Hmi].
  destruct (can_reload w (mi_name mi)); simpl.
  - split; [done|]. intros mi' [= <-]. eauto.
  - split; [done|]. rewrite Hmi. intros mi' [= <-]. eauto.
Qed.

Lemma pres_bounded_mi_unload : pres_bounded mi_unload.
Proof.
  apply pres_bounded_same. intros s.
  unfold mi_unload, with_mi, bind, get_self, emit, set_mi. simpl.
  destruct (_mi (self s)) as [mi|] eqn:Hmi; simpl; [|by rewrite Hmi].
  split; [done|]. intros mi' [= <-]. eauto.
Qed.

Lemma pres_bounded_pure {A} (m : M A) :
  (∀ s, _filenameList (self (snd (m s))) = _filenameList (self s)
        ∧ _mi (self (snd (m s))) = _mi (self s)) →
  pres_bounded m.
Proof.
  intros Hm. apply pres_bounded_same. intros s. destruct (Hm s) as [Hfl Hmi].
  split; [done|]. rewrite Hmi. eauto.
Qed.

Lemma pres_bounded_reload w : pres_bounded (reload w).
Proof.
  unfold reload. apply pres_bounded_bind; [by apply pres_bounded_pure|].
  intros o. destruct (_loaded o); [by apply pres_bounded_pure|].
  apply pres_bounded_bind; [|intros; by apply pres_bounded_pure].
  destruct (_mi o); [apply pres_bounded_mi_reload | apply pres_bounded_read].
Qed.

Lemma pres_bounded_unload : pres_bounded unload.
Proof.
  unfold unload. apply pres_bounded_bind; [by apply pres_bounded_pure|].
  intros o. destruct (negb _); [by apply pres_bounded_pure|].
  apply pres_bounded_bind; [apply pres_bounded_mi_unload|].
  intros; by apply pres_bounded_pure.
Qed.

Lemma pres_bounded_getitems w attr n : ∀ i, pres_bounded (getitems w attr i n).
Proof.
  induction n as [|n IH]; intros i; simpl; [by apply pres_bounded_pure|].
  apply pres_bounded_bind.
  - unfold getitem. apply pres_bounded_bind; [apply pres_bounded_reload|].
    intros _. apply pres_bounded_pure. intros s.
    unfold mi_getitem, with_mi, bind, get_self. simpl.
    destruct (_mi (self s)) as [mi|] eqn:Hmi; [destruct (mi_inds mi !! i)|];
      simpl; by rewrite Hmi.
  - intros ind. apply pres_bounded_bind; [apply IH|]. intros; by apply pres_bounded_pure.
Qed.

Lemma pres_bounded_discover w : pres_bounded (discover w).
Proof.
  unfold discover. apply pres_bounded_bind; [apply pres_bounded_reload|]. intros _.
  apply pres_bounded_bind; [by apply pres_bounded_pure|]. intros o.
  apply pres_bounded_bind; [apply pres_bounded_getitems|]. intros hps.
  apply pres_bounded_bind; [apply pres_bounded_getitems|]. intros nss.
  destruct (negb _); [by apply pres_bounded_pure|].
  destruct (negb _); by apply pres_bounded_pure.
Qed.

Lemma reachable_bounded w s : reachable w s → bounded (self s).
Proof.
  induction 1 as [fl hp ns o t Hinit | fl o t Hfrom | s o Hreach IH].
  - apply init_unloaded in Hinit as (_ & _ & _ & Hmi & _).
    intros mi. simpl. by rewrite Hmi.
  - unfold fromFilenameList in Hfrom.
    destruct (MultiIndexCache_init fl 0 0) as [o0|e] eqn:Hinit; [|done].
    apply init_unloaded in Hinit as (_ & _ & _ & Hmi & _).
    assert (bounded (self (mkSt o0 []))) as H0.
    { intros mi. simpl. by rewrite Hmi. }
    apply (pres_bounded_discover w) in H0.
    destruct (discover w (mkSt o0 [])) as [[[]|e] s1]; simpl in *; [|done].
    by injection Hfrom as <- <-.
  - destruct o; simpl;
      [by apply pres_bounded_read | by apply pres_bounded_reload
      | by apply pres_bounded_unload].
Qed.

Lemma reachable_constructed w s : reachable w s → constructed (self s).
Proof.
  induction 1 as [fl hp ns o t Hinit | fl o t Hfrom | s o Hreach IH].
  - by eapply init_constructed.
  - apply (fromFilenameList_ok w fl). by rewrite Hfrom.
  - unfold constructed in *. by destruct (keeps_meta_run_op w o s) as (-> & _).
Qed.

(** X14. A handle never holds more parts than it declares: in every state
    reached from a constructor through [read], [reload] and [unload],
    returning or raising, the number of attached parts is at most [len], so
    iterating over the handle yields at most [len] items. *)
Theorem attached_at_most_declared w s :
  reachable w s →
  (∀ mi, _mi (self s) = Some mi → Z.of_nat (length (mi_inds mi)) ≤ len (self s))
  ∧ (∀ parts s', iter w s = (Ok parts, s') → Z.of_nat (length parts) ≤ len (self s)).
Proof.
  intros Hreach. pose proof (reachable_bounded w s Hreach) as Hb.
  pose proof (reachable_constructed w s Hreach) as Hc. unfold constructed in Hc.
  assert (bounded (self (snd (reload w s)))) as Hb1 by (by apply pres_bounded_reload).
  split.
  - intros mi Hmi. specialize (Hb mi Hmi). unfold len. unfold Filename in *. lia.
  - intros parts s'. unfold iter, bind.
    pose proof (keeps_files_reload w s) as Hfl.
    destruct (reload w s) as [[[]|e] s1]; [|done]. simpl in *.
    unfold with_mi, bind, get_self. simpl.
    destruct (_mi (self s1)) as [mi|] eqn:Hmi; [|done].
    unfold ret. intros [= <- <-]. specialize (Hb1 mi Hmi).
    unfold len. rewrite <- Hfl. rewrite <- Hfl in Hc. unfold Filename in *. lia.
Qed.

Lemma attached_at_most_declared_witness :
  let s := snd (read demo_world (mkSt tail_handle [])) in
  Z.of_nat (length [mkIndex 3 10 4 70 30]) ≤ len (self s)
  ∧ len (self s) = 3.
Proof.
  split; [|reflexivity].
  refine (proj1 (attached_at_most_declared demo_world
                   (snd (read demo_world (mkSt tail_handle []))) _)
            (mkMultiIndex "/data/idx1.fits" [mkIndex 3 10 4 70 30] true) _);
    [|reflexivity].
  apply (reach_call demo_world _ OpRead).
  apply (reach_init demo_world
           [Some "idx1.fits"; Some "part.fits"; None; Some "gone.fits"]%string 10 4).
  reflexivity.
Defined.

(** ** read: a present part after a skipped entry *)

Lemma read_parts_app_present w tail pres inds :
  Forall2 (λ f ind, path_exists w (getIndexPath w f) = true
                    ∧ index_file w (getIndexPath w f) = Some ind) pres inds →
  ∀ s name inds0 res,
    _mi (self s) = Some (mkMultiIndex name inds0 res) →
    ∃ t', read_parts w (length inds0) (map Some pres ++ tail) s
          = read_parts w (length inds0 + length pres) tail
              (mkSt (with_native (self s) (mkMultiIndex name (inds0 ++ inds) res)) t').
Proof.
  induction 1 as [|f ind pres inds [Hex Hind] _ IH]; intros s name inds0 res Hmi.
  - exists (trace s). simpl. rewrite Nat.add_0_r, app_nil_r. f_equal.
    destruct s as [[fl hp ns m l] t]. unfold with_native. simpl in *. by subst.
  - simpl. rewrite Hex. simpl.
    unfold bind at 1. unfold emit at 1. simpl.
    unfold bind at 1. unfold mi_addIndex, with_mi, bind, get_self, emit, set_mi. simpl.
    rewrite Hmi. simpl. rewrite Hind. simpl.
    unfold mi_getitem, with_mi, bind, get_self. simpl.
    rewrite lookup_app_r by lia. rewrite Nat.sub_diag. simpl.
    match goal with |- context [read_parts w (S (length inds0)) _ ?s0] =>
      destruct (IH s0 name (inds0 ++ [ind]) res eq_refl) as [t' Ht'] end.
    rewrite length_app in Ht'. simpl in Ht'. rewrite Nat.add_1_r in Ht'.
    exists t'. rewrite Ht'. unfold with_native. simpl.
    rewrite <- app_assoc. simpl. f_equal. lia.
Qed.

Lemma read_parts_app_skipped w tail sk : ∀ i s,
  Forall (skipped w) sk →
  ∃ t', read_parts w i (sk ++ tail) s
        = read_parts w (i + length sk) tail (mkSt (self s) t').
Proof.
  induction sk as [|fn sk IH]; intros i s Hall.
  - exists (trace s). simpl. rewrite Nat.add_0_r. by destruct s.
  - inversion Hall as [|? ? Hfn Hrest]; subst. simpl.
    destruct fn as [f|]; simpl in *.
    + rewrite Hfn. simpl. unfold bind at 1. unfold emit at 1. simpl.
      match goal with |- context [read_parts w (S i) _ ?s0] =>
        destruct (IH (S i) s0 Hrest) as [t' Ht'] end.
      exists t'. rewrite Ht'. simpl. f_equal. lia.
    + unfold bind at 1. unfold emit at 1. simpl.
      match goal with |- context [read_parts w (S i) _ ?s0] =>
        destruct (IH (S i) s0 Hrest) as [t' Ht'] end.
      exists t'. rewrite Ht'. simpl. f_equal. lia.
Qed.

(** X15. Where missing-part tolerance ends: when a part that is on disk and
    readable comes after a null or missing entry, [read] attaches it and then
    raises IndexError, whatever follows; the handle keeps the native
    structure with the parts attached up to and including that one. *)
Theorem read_present_after_skipped_raises w o t fn0 pres inds (sk : list Filename) f ind
    (rest : list Filename) :
  _mi o = None →
  _filenameList o = Some fn0 :: map Some pres ++ sk ++ Some f :: rest →
  path_exists w (getIndexPath w fn0) = true →
  star_file w (getIndexPath w fn0) = true →
  Forall2 (λ f ind, path_exists w (getIndexPath w f) = true
                    ∧ index_file w (getIndexPath w f) = Some ind) pres inds →
  sk ≠ [] →
  Forall (skipped w) sk →
  path_exists w (getIndexPath w f) = true →
  index_file w (getIndexPath w f) = Some ind →
  fst (read w (mkSt o t)) = Raise IndexError
  ∧ self (snd (read w (mkSt o t)))
    = with_native o (mkMultiIndex (getIndexPath w fn0) (inds ++ [ind]) true).
Proof.
  intros Hmi Hfl Hex Hstar Hpres Hne Hskip Hfex Hfind.
  unfold read, bind, get_self, MultiIndex_new, emit, set_mi. simpl.
  rewrite Hmi, Hfl, Hex. simpl. rewrite Hstar. simpl.
  match goal with |- context [read_parts w 0 _ ?s0] =>
    destruct (read_parts_app_present w (sk ++ Some f :: rest) pres inds Hpres s0
                (getIndexPath w fn0) [] true eq_refl) as [t1 H1] end.
  simpl in H1. rewrite H1.
  match goal with |- context [read_parts w _ _ ?s1] =>
    destruct (read_parts_app_skipped w (Some f :: rest) sk (length pres) s1 Hskip)
      as [t2 H2] end.
  rewrite H2. simpl. rewrite Hfex. simpl.
  unfold bind at 1. unfold emit at 1. simpl.
  unfold bind at 1. unfold mi_addIndex, with_mi, bind, get_self, emit, set_mi. simpl.
  rewrite Hfind. simpl.
  unfold mi_getitem, with_mi, bind, get_self. simpl.
  apply Forall2_length in Hpres.
  rewrite lookup_ge_None_2.
  - done.
  - rewrite length_app. simpl. destruct sk; [done|]. simpl. lia.
Qed.

Lemma read_present_after_skipped_raises_witness :
  fst (read demo_world (mkSt gap_handle [])) = Raise IndexError
  ∧ self (snd (read demo_world (mkSt gap_handle [])))
    = with_native gap_handle
        (mkMultiIndex "/data/idx1.fits" [mkIndex 3 10 4 70 30] true).
Proof.
  apply (read_present_after_skipped_raises demo_world gap_handle [] "idx1.fits"
           [] [] [None] "part.fits" (mkIndex 3 10 4 70 30) []); try reflexivity.
  - constructor.
  - discriminate.
  - repeat constructor.
Defined.

(** ** Construction from the index files needs every file *)

(** X16. A registry is built from the index files only when every filename
    the configuration declares is non-null and on disk: a null entry or a
    missing file anywhere makes the construction raise. *)
Theorem initFromIndexFiles_needs_files w andConfig inds :
  fst (_initFromIndexFiles w andConfig) = Ok inds →
  ∀ fn, fn ∈ configFiles andConfig → present w fn = true.
Proof.
  intros Hok fn Hfn.
  pose proof (initFromIndexFiles_consistent w andConfig inds Hok) as Hcons.
  unfold consistent in Hcons. simpl in Hcons. rewrite <- Hcons in Hfn.
  apply elem_of_list_to_set in Hfn. unfold all_filenames in Hfn.
  apply elem_of_concat in Hfn as (l & Hl & Hfn).
  apply list_elem_of_fmap in Hl as (o & -> & Ho).
  unfold _initFromIndexFiles in Hok. apply fromFilenameLists_ok in Hok.
  apply list_elem_of_lookup in Ho as [i Ho].
  destruct (Forall2_lookup_r _ _ _ _ _ Hok Ho) as (fl & _ & Hfrom).
  destruct (fromFilenameList w fl) as [r t] eqn:Hfl. simpl in Hfrom. subst r.
  apply fromFilenameList_ok_parts in Hfl
    as (Hlist & _ & fn0 & parts & mi & -> & Hprim & Hparts & _).
  rewrite Hlist in Hfn. apply elem_of_cons in Hfn as [->|Hfn]; [exact Hprim|].
  by eapply Forall_forall in Hparts.
Qed.

Lemma initFromIndexFiles_needs_files_witness :
  present demo_world (Some "idx1.fits"%string) = true
  ∧ present demo_world (Some "idx2.fits"%string) = true.
Proof.
  destruct (fst (_initFromIndexFiles demo_world demo_config)) as [inds|e] eqn:Hinit;
    [|vm_compute in Hinit; discriminate].
  split; apply (initFromIndexFiles_needs_files demo_world demo_config inds Hinit);
    apply configFiles_elem; left; simpl; [by left | right; by left].
Defined.

(** ** What writeCache reads of a handle *)

Lemma fill_second_unloaded_copy width inds : ∀ j i rows,
  fill_second width j (map unloaded_copy inds) i rows = fill_second width j inds i rows.
Proof.
  induction inds as [|o rest IH]; intros j i rows; simpl; [done|].
  destruct (fill_filenames width (Z.of_nat j) (_filenameList o) i rows) as [[i' rows']|e];
    simpl; [apply IH | done].
Qed.

(** X17. [writeCache] reads only the filename lists, healpix and nside of the
    handles: whether a handle is loaded, or was ever read, makes no difference
    to the outcome or to the file written. *)
Theorem writeCache_ignores_load_state w cat :
  writeCache w (mkCatalog (config cat) (map unloaded_copy (_multiInds cat)))
  = writeCache w cat.
Proof.
  destruct cat as [cfg inds]. unfold writeCache. simpl.
  assert (all_filenames (map unloaded_copy inds) = all_filenames inds) as ->.
  { unfold all_filenames. by rewrite map_map. }
  rewrite map_map. simpl.
  destruct (rmap py_len (all_filenames inds)) as [lens|e]; simpl; [|done].
  destruct (py_max lens) as [longest|e]; simpl; [|done].
  rewrite fill_second_unloaded_copy.
  assert (imap (λ j ind, mkHandleRow (Z.of_nat j) (wrap64 (_healpix ind))
                           (wrap64 (_nside ind))) (map unloaded_copy inds)
          = imap (λ j ind, mkHandleRow (Z.of_nat j) (wrap64 (_healpix ind))
                             (wrap64 (_nside ind))) inds) as ->.
  { pose proof (imap_handle_rows (map unloaded_copy inds) 0) as H1.
    pose proof (imap_handle_rows inds 0) as H2. simpl in H1, H2. rewrite H1, H2.
    clear. generalize 0%nat. induction inds as [|o rest IH]; intros j; simpl; [done|].
    by rewrite IH. }
  done.
Qed.
